(** * Query assignments of mealie-addons (query_assignment.go)

    A shallow embedding of the periodic category/tag assignment loop
    [launchAssignmentLoop], of its helpers [updateSlice] and
    [indexedSlice], and of the paginated organiser retrieval
    [getOrganisers] from mealie.go.

    Go maps are modelled as association lists without duplicate keys;
    Go's iteration order over a map is unspecified, the models iterate in
    list order, and every property below is insensitive to that order.
    The recipe store is abstract: its operations are parameters of the
    sections below, failures are [None]. *)

From Stdlib Require Import List String ZArith Bool Lia Permutation DecimalString.
Import ListNotations.

(** ** Data model *)

(** [organiser] of mealie.go: a category or a tag. *)
Record organiser := mkOrganiser {
  ID : string;
  Name : string;
  Slug : string;
  kind : string
}.

Definition organiser_eq_dec (a b : organiser) : {a = b} + {a <> b}.
Proof. decide equality; apply string_dec. Defined.

(** [slug] of mealie.go, the key of the retention map. *)
Record slug := mkSlug { slugSlug : string }.

Definition slug_eq_dec (a b : slug) : {a = b} + {a <> b}.
Proof. decide equality; apply string_dec. Defined.

Record queryAssignmentData := mkData {
  Set_ : list string;
  Unset : list string
}.

(** A Go [map[string]string] of query parameters; only handed on to the
    store. *)
Record queryAssignmentQuery := mkQuery {
  Params : list (string * string);
  Mode : string
}.

Record queryAssignment := mkAssignment {
  Queries : list queryAssignmentQuery;
  Categories : queryAssignmentData;
  Tags : queryAssignmentData
}.

Record queryAssignments := mkAssignments {
  RepeatSecs : Z;
  TimeoutSecs : Z;
  Assignments : list queryAssignment
}.

(** Modelled from the spec: the recipe type carrying organiser
    collections, read by [getRecipe] and written back by [setOrganisers]
    (§3 "Recipe", §6 "fetchRecipeDetail"), is not part of the sources. *)
Record recipe := mkRecipe {
  rSlug : string;
  rCategories : list organiser;
  rTags : list organiser
}.

(** ** [updateSlice] and [indexedSlice] *)

Section UpdateSlice.

Variable T : Type.
Variable T_eq_dec : forall x y : T, {x = y} + {x <> y}.

(** [m[k] = true] on a Go [map[T]bool] used as a set. *)
Definition map_set (m : list T) (k : T) : list T :=
  if in_dec T_eq_dec k m then m else m ++ [k].

(** [delete(m, k)]. *)
Definition map_delete (m : list T) (k : T) : list T :=
  remove T_eq_dec k m.

(** [updateSlice]: the new collection (in map iteration order) and the
    [wasChanged] flag computed from the map sizes. *)
Definition updateSlice (original add remove : list T) : list T * bool :=
  let asMap := fold_left map_set original [] in
  let length0 := List.length asMap in
  let asMap := fold_left map_set add asMap in
  let wasChanged := negb (Nat.eqb length0 (List.length asMap)) in
  let length1 := List.length asMap in
  let asMap := fold_left map_delete remove asMap in
  let wasChanged := wasChanged || negb (Nat.eqb length1 (List.length asMap)) in
  (asMap, wasChanged).

End UpdateSlice.

Arguments map_set {T} T_eq_dec m k.
Arguments map_delete {T} T_eq_dec m k.
Arguments updateSlice {T} T_eq_dec original add remove.

(** A Go [map[string]T] built by successive assignments: the most recent
    assignment of a key is found first. *)
Definition strmap (A : Type) := list (string * A).

Fixpoint strmap_lookup {A} (m : strmap A) (k : string) : option A :=
  match m with
  | [] => None
  | (k', v) :: m' => if string_dec k k' then Some v else strmap_lookup m' k
  end.

Definition strmap_insert {A} (m : strmap A) (k : string) (v : A) : strmap A :=
  (k, v) :: m.

(** [indexedSlice]. *)
Definition indexedSlice {A} (myMap : strmap A) (indices : list string) : list A :=
  fold_left (fun result index =>
    match strmap_lookup myMap index with
    | Some value => result ++ [value]
    | None => result
    end) indices [].

(** ** External calls

    Every call to the store is recorded with the identifier of the
    [context.WithTimeout] deadline it runs under. *)
Inductive call :=
| CGetOrganisers (ctx : nat) (kind : string)
| CGetSlugs (ctx : nat) (params : list (string * string))
| CGetRecipe (ctx : nat) (slug : string)
| CSetOrganisers (ctx : nat) (r : recipe).

Definition ctx_of (c : call) : nat :=
  match c with
  | CGetOrganisers x _ | CGetSlugs x _ | CGetRecipe x _ | CSetOrganisers x _ => x
  end.

Definition is_search (c : call) : bool :=
  match c with CGetSlugs _ _ => true | _ => false end.

(** Retention map [map[slug]bool]. *)
Definition retention := list (slug * bool).

Fixpoint ret_set (m : retention) (k : slug) (v : bool) : retention :=
  match m with
  | [] => [(k, v)]
  | (k', v') :: m' =>
      if slug_eq_dec k k' then (k, v) :: m' else (k', v') :: ret_set m' k v
  end.

Fixpoint ret_lookup (m : retention) (k : slug) : option bool :=
  match m with
  | [] => None
  | (k', v) :: m' => if slug_eq_dec k k' then Some v else ret_lookup m' k
  end.

(** The recipes kept for mutation: the keys mapped to [true]. *)
Definition workingSet (m : retention) : list slug :=
  map fst (filter snd m).

(** [slices.Contains]. *)
Definition contains (l : list string) (s : string) : bool :=
  existsb (String.eqb s) l.

(** The names of the known organisers and the [name -> organiser] map. *)
Record taxonomy := mkTaxonomy {
  categories : list string;
  categoriesMap : strmap organiser;
  tags : list string;
  tagsMap : strmap organiser
}.

Definition buildTaxonomy (categoriesRaw tagsRaw : list organiser) : taxonomy :=
  mkTaxonomy
    (map Name categoriesRaw)
    (fold_left (fun m o => strmap_insert m (Name o) o) categoriesRaw [])
    (map Name tagsRaw)
    (fold_left (fun m o => strmap_insert m (Name o) o) tagsRaw []).

(** [skipThis]: some referenced name is not known. *)
Definition skipThis (tx : taxonomy) (a : queryAssignment) : bool :=
  existsb (fun c => negb (contains (categories tx) c)) (Set_ (Categories a))
  || existsb (fun c => negb (contains (categories tx) c)) (Unset (Categories a))
  || existsb (fun t => negb (contains (tags tx) t)) (Set_ (Tags a))
  || existsb (fun t => negb (contains (tags tx) t)) (Unset (Tags a)).

(** Two's complement wrap-around of Go's 64-bit [int] and
    [time.Duration]. *)
Definition wrap64 (z : Z) : Z :=
  let m := (z mod 2 ^ 64)%Z in
  if Z.ltb m (2 ^ 63) then m else (m - 2 ^ 64)%Z.

(** [max(repeatTime-timePassed, 0)] with
    [repeatTime = time.Duration(RepeatSecs) * time.Second]. *)
Definition nextWaitTime (cfg : queryAssignments) (timePassed : Z) : Z :=
  let repeatTime := wrap64 (RepeatSecs cfg * 1000000000)%Z in
  Z.max (wrap64 (repeatTime - timePassed)%Z) 0%Z.

(** ** The recipe store and its client *)

(** The operations of [*mealie] the loop uses, on an abstract store;
    [None] is an error. *)
Record mealieClient (Store : Type) := mkClient {
  getOrganisers : Store -> string -> option (list organiser);
  getSlugs : Store -> list (string * string) -> option (list slug);
  getRecipe : Store -> string -> option recipe;
  (** Modelled from the spec: [mealie.setOrganisers] (§6
      "writeRecipeTaxonomy") is not part of the sources; it yields the
      store after the write and whether it succeeded. *)
  setOrganisers : Store -> recipe -> Store * bool
}.

Arguments getOrganisers {Store} _ _ _.
Arguments getSlugs {Store} _ _ _.
Arguments getRecipe {Store} _ _ _.
Arguments setOrganisers {Store} _ _ _.

(** The store, the deadlines created so far and the calls made. *)
Record World (Store : Type) := mkWorld {
  store : Store;
  nextCtx : nat;
  calls : list call  (* most recent first *)
}.

Arguments mkWorld {Store} _ _ _.
Arguments store {Store} _.
Arguments nextCtx {Store} _.
Arguments calls {Store} _.

Definition M (Store A : Type) := World Store -> A * World Store.

Definition ret {Store A} (x : A) : M Store A := fun w => (x, w).

Definition bind {Store A B} (m : M Store A) (k : A -> M Store B) : M Store B :=
  fun w => let (x, w') := m w in k x w'.

Notation "x <- m ;; k" := (bind m (fun x => k))
  (at level 61, m at next level, right associativity).

(** ** The reconciliation cycle *)

Section Cycle.

Context {Store : Type}.
Variable mealie : mealieClient Store.

(** [context.WithTimeout(background, timeout)]: a fresh deadline. *)
Definition withTimeout : M Store nat :=
  fun w => (nextCtx w, mkWorld (store w) (S (nextCtx w)) (calls w)).

Definition record (c : call) (w : World Store) : World Store :=
  mkWorld (store w) (nextCtx w) (c :: calls w).

Definition mGetOrganisers (ctx : nat) (k : string) : M Store (option (list organiser)) :=
  fun w => (getOrganisers mealie (store w) k, record (CGetOrganisers ctx k) w).

Definition mGetSlugs (ctx : nat) (p : list (string * string)) : M Store (option (list slug)) :=
  fun w => (getSlugs mealie (store w) p, record (CGetSlugs ctx p) w).

Definition mGetRecipe (ctx : nat) (s : string) : M Store (option recipe) :=
  fun w => (getRecipe mealie (store w) s, record (CGetRecipe ctx s) w).

Definition mSetOrganisers (ctx : nat) (r : recipe) : M Store bool :=
  fun w =>
    let (st', ok) := setOrganisers mealie (store w) r in
    (ok, mkWorld st' (nextCtx w) (CSetOrganisers ctx r :: calls w)).

(** The query loop of one assignment, all under the deadline [ctx]. *)
Fixpoint evalQueries (ctx : nat) (qs : list queryAssignmentQuery) (r : retention)
  : M Store retention :=
  match qs with
  | [] => ret r
  | q :: qs' =>
      if String.eqb (Mode q) "add" || String.eqb (Mode q) "remove" then
        res <- mGetSlugs ctx (Params q) ;;
        match res with
        | None => evalQueries ctx qs' r
        | Some querySlugs =>
            evalQueries ctx qs'
              (fold_left (fun r s => ret_set r s (String.eqb (Mode q) "add"))
                 querySlugs r)
        end
      else evalQueries ctx qs' r
  end.

(** The new organisers of a recipe and the two change flags. *)
Definition updateRecipe (tx : taxonomy) (a : queryAssignment) (rc : recipe)
  : recipe * bool * bool :=
  let (cats, categoriesChanged) :=
    updateSlice organiser_eq_dec (rCategories rc)
      (indexedSlice (categoriesMap tx) (Set_ (Categories a)))
      (indexedSlice (categoriesMap tx) (Unset (Categories a))) in
  let (tgs, tagsChanged) :=
    updateSlice organiser_eq_dec (rTags rc)
      (indexedSlice (tagsMap tx) (Set_ (Tags a)))
      (indexedSlice (tagsMap tx) (Unset (Tags a))) in
  (mkRecipe (rSlug rc) cats tgs, categoriesChanged, tagsChanged).

(** Processing one retained recipe. *)
Definition processRecipe (tx : taxonomy) (a : queryAssignment) (s : slug) : M Store unit :=
  ctx <- withTimeout ;;
  res <- mGetRecipe ctx (slugSlug s) ;;
  match res with
  | None => ret tt
  | Some rc =>
      match updateRecipe tx a rc with
      | (rc', categoriesChanged, tagsChanged) =>
          if categoriesChanged || tagsChanged then
            ctx' <- withTimeout ;;
            _ <- mSetOrganisers ctx' rc' ;;
            ret tt
          else ret tt
      end
  end.

Fixpoint processRecipes (tx : taxonomy) (a : queryAssignment) (ss : list slug) : M Store unit :=
  match ss with
  | [] => ret tt
  | s :: ss' => _ <- processRecipe tx a s ;; processRecipes tx a ss'
  end.

Definition runAssignment (tx : taxonomy) (a : queryAssignment) : M Store unit :=
  if skipThis tx a then ret tt
  else
    ctx <- withTimeout ;;
    r <- evalQueries ctx (Queries a) [] ;;
    processRecipes tx a (workingSet r).

Fixpoint runAssignments (tx : taxonomy) (as_ : list queryAssignment) : M Store unit :=
  match as_ with
  | [] => ret tt
  | a :: as' => _ <- runAssignment tx a ;; runAssignments tx as'
  end.

(** One cycle: both taxonomies are fetched, then, unless one of the
    fetches failed, every assignment runs. *)
Definition runCycle (as_ : list queryAssignment) : M Store unit :=
  ctx1 <- withTimeout ;;
  categoriesRaw <- mGetOrganisers ctx1 "categories" ;;
  ctx2 <- withTimeout ;;
  tagsRaw <- mGetOrganisers ctx2 "tags" ;;
  let skipAll := match categoriesRaw, tagsRaw with
                 | Some _, Some _ => false
                 | _, _ => true
                 end in
  let tx := buildTaxonomy (match categoriesRaw with Some l => l | None => [] end)
                          (match tagsRaw with Some l => l | None => [] end) in
  if skipAll then ret tt else runAssignments tx as_.

(** The background loop: between two cycles it waits for either the quit
    signal or the timer; [Timer timePassed] fires the timer and runs a
    cycle that takes [timePassed] nanoseconds. *)
Inductive loopState :=
| Running (nextWait : Z) (w : World Store)
| Stopped (w : World Store).

Inductive loopEvent :=
| Quit
| Timer (timePassed : Z).

Definition loopStep (cfg : queryAssignments) (ev : loopEvent) (s : loopState) : loopState :=
  match s with
  | Stopped w => Stopped w
  | Running _ w =>
      match ev with
      | Quit => Stopped w
      | Timer timePassed =>
          Running (nextWaitTime cfg timePassed) (snd (runCycle (Assignments cfg) w))
      end
  end.

(** [launchAssignmentLoop]: the started loop (standing for the [quit]
    handle of its goroutine) and the error. *)
Definition launchAssignmentLoop (cfg : queryAssignments) (w : World Store)
  : option loopState * option string :=
  if Nat.eqb (List.length (Assignments cfg)) 0 then (None, None)
  else (Some (Running 0%Z w), None).

End Cycle.

(** ** Paginated retrieval of organisers ([getOrganisers], mealie.go)

    [fetchPage st kind page] stands for one request of the loop, from
    [http.NewRequestWithContext] to [json.Unmarshal]: the items of the
    page and [total_pages], or [None] when any step of it fails. The loop
    is a big-step relation, so that a store that keeps announcing more
    pages has no result, as the Go loop does not return. Each run records
    the pages requested and whether each request succeeded. *)
Section Pages.

Variable Store : Type.
Variable fetchPage : Store -> string -> Z -> option (list organiser * Z).

Inductive pagesLoop (st : Store) (k : string)
  : Z -> Z -> list organiser -> list (Z * bool) -> option (list organiser) -> Prop :=
| PagesDone page lastPage acc :
    (lastPage < page)%Z ->
    pagesLoop st k page lastPage acc [] (Some acc)
| PagesFail page lastPage acc :
    (page <= lastPage)%Z ->
    fetchPage st k page = None ->
    pagesLoop st k page lastPage acc [(page, false)] None
| PagesNext page lastPage acc items pages reqs res :
    (page <= lastPage)%Z ->
    fetchPage st k page = Some (items, pages) ->
    pagesLoop st k (page + 1) pages (acc ++ items) reqs res ->
    pagesLoop st k page lastPage acc ((page, true) :: reqs) res.

Definition setKind (k : string) (o : organiser) : organiser :=
  mkOrganiser (ID o) (Name o) (Slug o) k.

Inductive getOrganisersRel (st : Store) (k : string)
  : list (Z * bool) -> option (list organiser) -> Prop :=
| GetOrganisersBadKind :
    k <> "categories"%string -> k <> "tags"%string ->
    getOrganisersRel st k [] None
| GetOrganisersPages reqs res :
    (k = "categories"%string \/ k = "tags"%string) ->
    pagesLoop st k 1 10 [] reqs res ->
    getOrganisersRel st k reqs (option_map (map (setKind k)) res).

End Pages.

Open Scope string_scope.
Open Scope list_scope.

(** ** Notions used to state the properties *)

(** Equality of two collections as sets. *)
Definition same_elems {A} (l1 l2 : list A) : Prop :=
  forall x, In x l1 <-> In x l2.

(** The retention rule as the spec states it (§4.4, last-write-wins):
    the decision for [s] is the mode of the last [add]/[remove] query
    whose search succeeded and returned [s]. *)
Fixpoint lastMatchFrom {Store} (mealie : mealieClient Store) (st : Store)
  (qs : list queryAssignmentQuery) (s : slug) (acc : option bool) : option bool :=
  match qs with
  | [] => acc
  | q :: qs' =>
      let acc' :=
        if String.eqb (Mode q) "add" || String.eqb (Mode q) "remove" then
          match getSlugs mealie st (Params q) with
          | Some l => if in_dec slug_eq_dec s l then Some (String.eqb (Mode q) "add") else acc
          | None => acc
          end
        else acc in
      lastMatchFrom mealie st qs' s acc'
  end.

Definition lastMatchDecision {Store} (mealie : mealieClient Store) (st : Store)
  (qs : list queryAssignmentQuery) (s : slug) : option bool :=
  lastMatchFrom mealie st qs s None.

(** Every call other than a search runs under a deadline no other call
    of the list shares. *)
Definition own_deadlines (cs : list call) : Prop :=
  forall c, In c cs -> is_search c = false ->
  count_occ Nat.eq_dec (map ctx_of cs) (ctx_of c) = 1.

(** Every deadline recorded was created before. *)
Definition ctx_bounded {Store} (w : World Store) : Prop :=
  forall c, In c (calls w) -> ctx_of c < nextCtx w.

Definition cycle_inv {Store} (w : World Store) : Prop :=
  ctx_bounded w /\ own_deadlines (calls w).

(** Inside the query loop of an assignment, with its deadline [ctx]. *)
Definition query_inv {Store} (ctx : nat) (w : World Store) : Prop :=
  cycle_inv w /\ ctx < nextCtx w /\
  (forall c, In c (calls w) -> ctx_of c = ctx -> is_search c = true).

(** ** A small store used for examples *)

Definition made := mkOrganiser "1" "Made" "made" "categories".
Definition notMade := mkOrganiser "2" "NotMade" "not-made" "categories".
Definition yummy := mkOrganiser "3" "Yummy" "yummy" "tags".
Definition unknownTag := mkOrganiser "4" "Unknown" "unknown" "tags".

(** A store of recipes in which every search matches every recipe. *)
Definition demoClient : mealieClient (list recipe) :=
  mkClient (list recipe)
    (fun _ k =>
       if String.eqb k "categories" then Some [made; notMade]
       else if String.eqb k "tags" then Some [yummy; unknownTag]
       else None)
    (fun st _ => Some (map (fun r => mkSlug (rSlug r)) st))
    (fun st s => find (fun r => String.eqb (rSlug r) s) st)
    (fun st r =>
       (map (fun r' => if String.eqb (rSlug r') (rSlug r) then r else r') st, true)).

(** The same store whose searches fail when a filter value is "broken". *)
Definition partialFailClient : mealieClient (list recipe) :=
  mkClient (list recipe)
    (getOrganisers demoClient)
    (fun st p =>
       if existsb (fun kv => String.eqb (snd kv) "broken") p then None
       else getSlugs demoClient st p)
    (getRecipe demoClient) (setOrganisers demoClient).

(** The same store whose taxonomy cannot be fetched. *)
Definition taxonomyDownClient : mealieClient (list recipe) :=
  mkClient (list recipe)
    (fun _ _ => None) (getSlugs demoClient)
    (getRecipe demoClient) (setOrganisers demoClient).

Definition brokenQuery := mkQuery [("queryFilter", "broken")] "add".
Definition goodQuery := mkQuery [("queryFilter", "lastMade IS NOT NULL")] "add".

Definition recipeR := mkRecipe "r" [notMade] [].

Definition world0 : World (list recipe) := mkWorld [recipeR] 0 [].

(** The assignment of the spec's example (§8). *)
Definition madeAssignment :=
  mkAssignment
    [mkQuery [("queryFilter", "lastMade IS NOT NULL")] "add"]
    (mkData ["Made"] ["NotMade"])
    (mkData ["Yummy"] []).

(** An assignment naming "Made" both to set and to unset. *)
Definition conflictingAssignment :=
  mkAssignment
    [mkQuery [("queryFilter", "lastMade IS NOT NULL")] "add"]
    (mkData ["Made"] ["Made"])
    (mkData [] []).

(** An assignment with two searches. *)
Definition twoQueryAssignment :=
  mkAssignment
    [mkQuery [("queryFilter", "lastMade IS NOT NULL")] "add";
     mkQuery [("queryFilter", "lastMade IS NULL")] "add"]
    (mkData ["Made"] [])
    (mkData [] []).

(** An assignment referring to a category the store does not know. *)
Definition unknownNameAssignment :=
  mkAssignment
    [mkQuery [("queryFilter", "lastMade IS NOT NULL")] "add"]
    (mkData ["Cooked"] [])
    (mkData [] []).

(** The same recipe without any category or tag. *)
Definition world1 : World (list recipe) := mkWorld [mkRecipe "r" [] []] 0 [].

(** The taxonomy snapshot of the example store. *)
Definition snapshot := buildTaxonomy [made; notMade] [yummy; unknownTag].

(** Queries that make a search. *)
Definition is_add_remove (q : queryAssignmentQuery) : bool :=
  String.eqb (Mode q) "add" || String.eqb (Mode q) "remove".

(** The world after the two taxonomy fetches of [runCycle]. *)
Definition afterTaxonomy {Store} (w : World Store) : World Store :=
  mkWorld (store w) (S (S (nextCtx w)))
    (CGetOrganisers (S (nextCtx w)) "tags" :: CGetOrganisers (nextCtx w) "categories" :: calls w).

(** ** Whitespace normalisation ([collapseWhitespace], mealie.go)

    A Go string is modelled by the sequence of its runes (Unicode code
    points), as [range] and the [strings] functions below decode it. *)
Definition rune := Z.

(** [unicode.IsSpace]: the Latin-1 cases, then the [White_Space] table. *)
Definition isSpace (r : rune) : bool :=
  if Z.leb r 255 then
    Z.eqb r 9 || Z.eqb r 10 || Z.eqb r 11 || Z.eqb r 12 || Z.eqb r 13 ||
    Z.eqb r 32 || Z.eqb r 133 || Z.eqb r 160
  else
    Z.eqb r 5760 || (Z.leb 8192 r && Z.leb r 8202) || Z.eqb r 8232 ||
    Z.eqb r 8233 || Z.eqb r 8239 || Z.eqb r 8287 || Z.eqb r 12288.

(** [strings.Fields]: the maximal runs of non-space runes; [cur] is the
    current run, reversed. *)
Fixpoint fieldsAux (cur : list rune) (s : list rune) : list (list rune) :=
  match s with
  | [] => match cur with [] => [] | _ => [rev cur] end
  | r :: s' =>
      if isSpace r then
        match cur with
        | [] => fieldsAux [] s'
        | _ => rev cur :: fieldsAux [] s'
        end
      else fieldsAux (r :: cur) s'
  end.

Definition Fields (s : list rune) : list (list rune) := fieldsAux [] s.

(** [strings.Join]. *)
Fixpoint Join (elems : list (list rune)) (sep : list rune) : list rune :=
  match elems with
  | [] => []
  | [e] => e
  | e :: es => e ++ sep ++ Join es sep
  end.

Fixpoint trimLeftSpace (s : list rune) : list rune :=
  match s with
  | [] => []
  | r :: s' => if isSpace r then trimLeftSpace s' else s
  end.

(** [strings.TrimSpace]: leading, then trailing white space removed. *)
Definition TrimSpace (s : list rune) : list rune :=
  rev (trimLeftSpace (rev (trimLeftSpace s))).

(** [collapseWhitespace]. *)
Definition collapseWhitespace (s : list rune) : list rune :=
  TrimSpace (Join (Fields s) [32%Z]).

(** A string in the form [collapseWhitespace] produces: its only white
    space is the blank (U+0020), it does not start or end with white
    space, and no two white space runes are adjacent. *)
Definition startsNonSpace (s : list rune) : bool :=
  match s with [] => true | r :: _ => negb (isSpace r) end.

Fixpoint noAdjacentSpace (s : list rune) : bool :=
  match s with
  | r1 :: ((r2 :: _) as t) => negb (isSpace r1 && isSpace r2) && noAdjacentSpace t
  | _ => true
  end.

Definition collapsed (s : list rune) : bool :=
  forallb (fun r => negb (isSpace r) || Z.eqb r 32) s &&
  startsNonSpace s && startsNonSpace (rev s) && noAdjacentSpace s.

(** The runes of an ASCII string literal. *)
Definition runesOf (s : string) : list rune :=
  map (fun a => Z.of_nat (Ascii.nat_of_ascii a)) (list_ascii_of_string s).

(** ** Recipes as mealie.go decodes them, and their [normalise] methods

    The slices of pointers are lists whose entries are [None] for a [nil]
    pointer; calling [normalise] through a [nil] pointer panics, which
    [normalise] reports as [None]. Several entries pointing to the same
    object are normalised once per entry, which gives the same result as
    normalising once, [collapseWhitespace] being idempotent. *)
Module Mealie.

Record category := mkCategory { categoryText : list rune }.
Record tag := mkTag { tagText : list rune }.
Record instruction := mkInstruction { instructionText : list rune }.
Record ingredient := mkIngredient { ingredientText : list rune }.
Record user := mkUser { userName : list rune }.
Record comment := mkComment { commentText : list rune; commentUser : user }.

(** [Servings] is a [float32], kept as its bit pattern: no code here
    reads it. *)
Record recipe := mkRecipe {
  ID : list rune;
  Slug : list rune;
  Name : list rune;
  Servings : Z;
  TotalTime : list rune;
  Description : list rune;
  OrgURL : list rune;
  Categories : list (option category);
  Tags : list (option tag);
  Instructions : list (option instruction);
  Ingredients : list (option ingredient);
  Comments : list (option comment);
  Image : list rune
}.

(** The zero value [recipe{}]. *)
Definition zeroRecipe : recipe := mkRecipe [] [] [] 0 [] [] [] [] [] [] [] [] [].

Definition category_normalise (c : category) : category :=
  mkCategory (collapseWhitespace (categoryText c)).
Definition tag_normalise (t : tag) : tag :=
  mkTag (collapseWhitespace (tagText t)).
Definition instruction_normalise (i : instruction) : instruction :=
  mkInstruction (collapseWhitespace (instructionText i)).
Definition ingredient_normalise (i : ingredient) : ingredient :=
  mkIngredient (collapseWhitespace (ingredientText i)).
Definition user_normalise (u : user) : user :=
  mkUser (collapseWhitespace (userName u)).
Definition comment_normalise (c : comment) : comment :=
  mkComment (collapseWhitespace (commentText c)) (user_normalise (commentUser c)).

(** [for _, x := range xs { x.normalise() }]. *)
Fixpoint normaliseEach {A} (f : A -> A) (xs : list (option A)) : option (list (option A)) :=
  match xs with
  | [] => Some []
  | None :: _ => None
  | Some x :: xs' =>
      match normaliseEach f xs' with
      | Some ys => Some (Some (f x) :: ys)
      | None => None
      end
  end.

(** The [normalise] method of [*recipe]. *)
Definition normalise (r : recipe) : option recipe :=
  match normaliseEach category_normalise (Categories r),
        normaliseEach tag_normalise (Tags r),
        normaliseEach instruction_normalise (Instructions r),
        normaliseEach ingredient_normalise (Ingredients r),
        normaliseEach comment_normalise (Comments r) with
  | Some cs, Some ts, Some is, Some gs, Some ms =>
      Some (mkRecipe (collapseWhitespace (ID r)) (Slug r)
              (collapseWhitespace (Name r)) (Servings r)
              (collapseWhitespace (TotalTime r))
              (collapseWhitespace (Description r))
              (collapseWhitespace (OrgURL r))
              cs ts is gs ms (collapseWhitespace (Image r)))
  | _, _, _, _, _ => None
  end.

End Mealie.

(** ** [url.Values] and the slug listing ([getSlugs], mealie.go) *)

(** A [url.Values], [map[string][]string]. *)
Definition values := strmap (list string).

(** [v.Set(key, value)]. *)
Definition Values_Set (v : values) (key value : string) : values :=
  strmap_insert v key [value].

(** [v.Add(key, value)]: appends to the values of [key]. *)
Definition Values_Add (v : values) (key value : string) : values :=
  strmap_insert v key
    (match strmap_lookup v key with Some vs => vs ++ [value] | None => [value] end).

(** [fmt.Sprint] of an [int]. *)
Definition itoa (z : Z) : string := NilZero.string_of_int (Z.to_int z).

(** The parameters of the request for [page]. *)
Definition pageQuery (query : values) (page : Z) : values :=
  Values_Set (Values_Set query "page" (itoa page)) "per_page" "200".

Section SlugPages.

Variable Store : Type.
(** One request of the loop of [getSlugs], from
    [http.NewRequestWithContext] to [json.Unmarshal], with the parameters
    it is sent with: the items and [total_pages], or [None]. *)
Variable fetchSlugs : Store -> values -> option (list slug * Z).

(** The loop of [getSlugs]; [query] is the caller's [url.Values], which
    the loop updates in place. Each run records the parameters of every
    request, the result, and [query] as the caller sees it afterwards. *)
Inductive getSlugsLoop (st : Store)
  : values -> Z -> Z -> list slug -> list values -> option (list slug) -> values -> Prop :=
| SlugsDone query page lastPage acc :
    (lastPage < page)%Z ->
    getSlugsLoop st query page lastPage acc [] (Some acc) query
| SlugsFail query page lastPage acc :
    (page <= lastPage)%Z ->
    fetchSlugs st (pageQuery query page) = None ->
    getSlugsLoop st query page lastPage acc [pageQuery query page] None (pageQuery query page)
| SlugsNext query page lastPage acc items pages reqs res final :
    (page <= lastPage)%Z ->
    fetchSlugs st (pageQuery query page) = Some (items, pages) ->
    getSlugsLoop st (pageQuery query page) (page + 1) pages (acc ++ items) reqs res final ->
    getSlugsLoop st query page lastPage acc (pageQuery query page :: reqs) res final.

(** [getSlugs]: [page := 1], [lastPage := 10]. *)
Definition getSlugsRel (st : Store) (query : values) (reqs : list values)
    (res : option (list slug)) (final : values) : Prop :=
  getSlugsLoop st query 1 10 [] reqs res final.

End SlugPages.

(** ** [getRecipes] (mealie.go) *)

(** The query string of [getRecipes]: every value of every key added in
    turn. *)
Definition buildQuery (queryParams : strmap (list string)) : values :=
  fold_left (fun q kv => fold_left (fun q v => Values_Add q (fst kv) v) (snd kv) q)
    queryParams [].

(** The outcome of [getRecipes]: a panic of one of its goroutines, the
    error of the slug listing, or the recipes with the errors that
    [errors.Join] combines (none: a [nil] error). *)
Inductive recipesResult :=
| RecipesPanic
| RecipesSlugsFailed
| RecipesFetched (recipes : list Mealie.recipe) (errs : list string).

Section GetRecipes.

Variable Store : Type.
Variable fetchSlugs : Store -> values -> option (list slug * Z).
(** [getRecipe]: the decoded recipe or the error message. *)
Variable fetchRecipe : Store -> string -> Mealie.recipe + string.

(** What the goroutine of one slug stores: the normalised recipe or the
    zero recipe, and the error; [None] when it panics. *)
Definition recipeSlot (st : Store) (s : slug) : option (Mealie.recipe * option string) :=
  match fetchRecipe st (slugSlug s) with
  | inl r => match Mealie.normalise r with
             | Some r' => Some (r', None)
             | None => None
             end
  | inr e => Some (Mealie.zeroRecipe, Some e)
  end.

(** The goroutines write disjoint slots of [recipes] and [errs], so the
    result does not depend on their order. *)
Definition fetchAll (st : Store) (slugs : list slug) : recipesResult :=
  match fold_right (fun s acc =>
          match recipeSlot st s, acc with
          | Some p, Some l => Some (p :: l)
          | _, _ => None
          end) (Some []) slugs with
  | None => RecipesPanic
  | Some l =>
      RecipesFetched (map fst l)
        (flat_map (fun p => match snd p with Some e => [e] | None => [] end) l)
  end.

Inductive getRecipesRel (st : Store) (queryParams : strmap (list string))
  : recipesResult -> Prop :=
| GetRecipesSlugsFailed reqs final :
    getSlugsRel Store fetchSlugs st (buildQuery queryParams) reqs None final ->
    getRecipesRel st queryParams RecipesSlugsFailed
| GetRecipesFetched reqs slugs final :
    getSlugsRel Store fetchSlugs st (buildQuery queryParams) reqs (Some slugs) final ->
    getRecipesRel st queryParams (fetchAll st slugs).

End GetRecipes.

(** ** [getMedia] (mealie.go) *)

(** [strings.Split(s, ".")]; 46 is the code of the dot. *)
Fixpoint splitDot (s : string) : list string :=
  match s with
  | EmptyString => [""]
  | String c s' =>
      let rest := splitDot s' in
      if Ascii.eqb c (Ascii.ascii_of_nat 46) then "" :: rest
      else match rest with
           | r :: rs => String c r :: rs
           | [] => [String c ""]
           end
  end.

Record mediaDownload := mkMediaDownload { content : string; mime : string }.

Section GetMedia.

(** [strings.ToLower], and whether [jpeg.Decode] and [webp.Decode]
    accept the bytes. *)
Variable ToLower : string -> string.
Variable jpegDecodes webpDecodes : string -> bool.

(** [getMedia] from the response onwards: [resp] is the body and the
    [Content-Type] header, or the error of the request. *)
Definition getMedia (filename : string) (resp : (string * string) + string)
  : mediaDownload * option string :=
  let filenameParts := splitDot filename in
  let extension := ToLower (last filenameParts "") in
  match resp with
  | inr err => (mkMediaDownload "" "", Some err)
  | inl (body, contentType) =>
      let '(extension, decodeOk) :=
        if prefix "image/" contentType then (extension, true)
        else if String.eqb extension "jpg" then ("jpeg", jpegDecodes body)
        else if String.eqb extension "jpeg" then (extension, jpegDecodes body)
        else if String.eqb extension "webp" then (extension, webpDecodes body)
        else (extension, true) in
      let data := mkMediaDownload body ("image/" ++ extension)%string in
      if decodeOk then (data, None)
      else (data, Some ("failed to verify download as " ++ mime data)%string)
  end.

End GetMedia.

(** ** [fixesFromString] (fixes.go) *)

Record fixes := mkFixes { imageReupload : bool }.

Fixpoint list_rune_eqb (a b : list rune) : bool :=
  match a, b with
  | [], [] => true
  | x :: a', y :: b' => Z.eqb x y && list_rune_eqb a' b'
  | _, _ => false
  end.

(** The loop over [strings.FieldsSeq(s)]. *)
Fixpoint fixesLoop (fx : fixes) (fs : list (list rune)) : fixes * option (list rune) :=
  match fs with
  | [] => (fx, None)
  | fix_ :: fs' =>
      if list_rune_eqb fix_ (runesOf "image-reupload") then fixesLoop (mkFixes true) fs'
      else (fx, Some (runesOf "unknown fix " ++ fix_))
  end.

Definition fixesFromString (s : list rune) : fixes * option (list rune) :=
  fixesLoop (mkFixes false) (Fields s).

(** ** The earlier [launchAssignmentLoop] (query_assignment.go, second
    part): it checks every assignment once at start and then only waits. *)
Module Legacy.

Record queryAssignment := mkAssignment {
  Query : list (string * string);
  Categories : queryAssignmentData;
  Tags : queryAssignmentData
}.

Record queryAssignments := mkAssignments {
  RepeatSecs : Z;
  TimeoutSecs : Z;
  Assignments : list queryAssignment
}.

(** The [name -> ID] map of the fetched organisers. *)
Definition idMap (raw : list organiser) : strmap string :=
  fold_left (fun m o => strmap_insert m (Name o) (ID o)) raw [].

Fixpoint firstUnknown (known : strmap string) (names : list string) : option string :=
  match names with
  | [] => None
  | n :: ns => match strmap_lookup known n with
               | Some _ => firstUnknown known ns
               | None => Some n
               end
  end.

Definition checkAssignment (categories tags : strmap string) (a : queryAssignment)
  : option string :=
  match firstUnknown categories (Set_ (Categories a)) with
  | Some c => Some ("category " ++ c ++ " not known")%string
  | None =>
  match firstUnknown categories (Unset (Categories a)) with
  | Some c => Some ("category " ++ c ++ " not known")%string
  | None =>
  match firstUnknown tags (Set_ (Tags a)) with
  | Some t => Some ("tag " ++ t ++ " not known")%string
  | None =>
  match firstUnknown tags (Unset (Tags a)) with
  | Some t => Some ("tag " ++ t ++ " not known")%string
  | None => None
  end end end end.

Fixpoint checkAssignments (categories tags : strmap string) (as_ : list queryAssignment)
  : option string :=
  match as_ with
  | [] => None
  | a :: as' => match checkAssignment categories tags a with
                | Some err => Some err
                | None => checkAssignments categories tags as'
                end
  end.

Section Launch.

Variable Store : Type.
(** [getOrganisers]: the organisers or the error message. *)
Variable getOrganisers : Store -> string -> list organiser + string.

(** The kinds fetched, whether the [quit] handle is returned, and the
    error. *)
Definition launchAssignmentLoop (st : Store) (cfg : queryAssignments)
  : list string * bool * option string :=
  if Nat.eqb (List.length (Assignments cfg)) 0 then ([], false, None)
  else
    match getOrganisers st "categories" with
    | inr err => (["categories"], false, Some ("failed to retrieve categories: " ++ err)%string)
    | inl categoriesRaw =>
        match getOrganisers st "tags" with
        | inr err => (["categories"; "tags"], false, Some ("failed to retrieve tags: " ++ err)%string)
        | inl tagsRaw =>
            match checkAssignments (idMap categoriesRaw) (idMap tagsRaw) (Assignments cfg) with
            | Some err => (["categories"; "tags"], false, Some err)
            | None => (["categories"; "tags"], true, None)
            end
        end
    end.

End Launch.

End Legacy.

(** ** Further notions on the reconciliation cycle *)

(** The last of the fetched organisers named [n]: the value a Go map
    filled in fetch order holds for [n]. *)
Definition lastNamed (raw : list organiser) (n : string) : option organiser :=
  fold_left (fun acc o => if String.eqb (Name o) n then Some o else acc) raw None.

(** The slugs of the recipe fetches among some calls. *)
Definition recipeFetches (cs : list call) : list string :=
  flat_map (fun c => match c with CGetRecipe _ s => [s] | _ => [] end) cs.

(** A store of tags that reports [lastPage] pages, each holding [yummy]. *)
Definition demoPages (lastPage : Z) (_ : unit) (_ : string) (_ : Z)
  : option (list organiser * Z) :=
  Some ([yummy], lastPage).

(** A fetched recipe whose text fields carry stray whitespace. *)
Definition demoMealieRecipe : Mealie.recipe :=
  Mealie.mkRecipe (runesOf "r1") (runesOf "apple-pie") (runesOf "  Apple 	 pie ") 4
    (runesOf " 1 h ") [] [] [Some (Mealie.mkCategory (runesOf " Cake  "))] [] [] [] [] [].


(** ** [slugify] (markdown.go) *)

(** [strings.ToLower] maps [unicode.ToLower], here [lowerRune], over the
    runes; 45 is the code of the dash. *)
Definition slugify (lowerRune : rune -> rune) (s : list rune) : list rune :=
  Join (Fields (TrimSpace (map lowerRune s))) [45%Z].

(** [unicode.ToLower] on the ASCII letters, the identity elsewhere. *)
Definition lowerAscii (r : rune) : rune :=
  if (Z.leb 65 r && Z.leb r 90)%bool then (r + 32)%Z else r.

(** The calls that fetch or write a single recipe. *)
Definition recipe_or_write (c : call) : Prop :=
  match c with CGetRecipe _ _ | CSetOrganisers _ _ => True | _ => False end.

(** ** Sanity checks on small inputs *)


Example updateSlice_replace :
  updateSlice organiser_eq_dec [notMade] [made] [notMade] = ([made], true).
Proof. reflexivity. Qed.

Example updateSlice_noop :
  updateSlice organiser_eq_dec [made] [made] [notMade] = ([made], false).
Proof. reflexivity. Qed.

Example indexedSlice_skips_unknown :
  indexedSlice [("Made", made); ("NotMade", notMade)] ["NotMade"; "Other"; "Made"]
  = [notMade; made].
Proof. reflexivity. Qed.

(** * Facts about [updateSlice] *)

Section UpdateSliceFacts.

Variable T : Type.
Variable dec : forall x y : T, {x = y} + {x <> y}.

Lemma map_set_present m k : In k m -> map_set dec m k = m.
Proof. unfold map_set. destruct (in_dec dec k m); tauto. Qed.

Lemma map_set_absent m k : ~ In k m -> map_set dec m k = m ++ [k].
Proof. unfold map_set. destruct (in_dec dec k m); tauto. Qed.

Lemma in_map_set m k x : In x (map_set dec m k) <-> In x m \/ x = k.
Proof.
  destruct (in_dec dec k m) as [H|H].
  - rewrite map_set_present by exact H. intuition congruence.
  - rewrite map_set_absent, in_app_iff by exact H. simpl. intuition.
Qed.

Lemma in_fold_set l m x :
  In x (fold_left (map_set dec) l m) <-> In x m \/ In x l.
Proof.
  revert m. induction l as [|a l IH]; intro m; simpl.
  - tauto.
  - rewrite IH, in_map_set. intuition.
Qed.

Lemma nodup_fold_set l m : NoDup m -> NoDup (fold_left (map_set dec) l m).
Proof.
  revert m. induction l as [|a l IH]; intros m Hm; simpl; [exact Hm|].
  apply IH. destruct (in_dec dec a m) as [H|H].
  - rewrite map_set_present; assumption.
  - rewrite map_set_absent by exact H.
    apply (Permutation_NoDup (Permutation_cons_append m a)).
    constructor; assumption.
Qed.

Lemma length_fold_set_le l m :
  List.length m <= List.length (fold_left (map_set dec) l m).
Proof.
  revert m. induction l as [|a l IH]; intro m; simpl; [lia|].
  destruct (in_dec dec a m) as [H|H].
  - rewrite map_set_present by exact H. apply IH.
  - rewrite map_set_absent by exact H.
    specialize (IH (m ++ [a])). rewrite length_app in IH. simpl in IH. lia.
Qed.

(** The size of the map is unchanged by the additions exactly when every
    added key was already there. *)
Lemma length_fold_set_eq l m :
  List.length (fold_left (map_set dec) l m) = List.length m <->
  (forall x, In x l -> In x m).
Proof.
  revert m. induction l as [|a l IH]; intro m; simpl.
  - split; [intros _ x []|reflexivity].
  - destruct (in_dec dec a m) as [H|H].
    + rewrite map_set_present by exact H. rewrite IH.
      split; intros Hl x Hx; [destruct Hx; subst; auto|auto].
    + rewrite map_set_absent by exact H. split.
      * intro Hlen. exfalso.
        pose proof (length_fold_set_le l (m ++ [a])) as Hle.
        rewrite length_app in Hle. simpl in Hle. lia.
      * intro Hl. exfalso. apply H, Hl. left. reflexivity.
Qed.

Lemma nodup_remove k m : NoDup m -> NoDup (remove dec k m).
Proof.
  induction m as [|a m IH]; intro Hm; simpl; [constructor|].
  inversion Hm as [|? ? Ha Hm']; subst.
  destruct (dec k a); [auto|].
  constructor; [|auto].
  intro Hin. apply in_remove in Hin. tauto.
Qed.

Lemma in_fold_delete l m x :
  In x (fold_left (map_delete dec) l m) <-> In x m /\ ~ In x l.
Proof.
  revert m. induction l as [|a l IH]; intro m; simpl.
  - tauto.
  - rewrite IH. unfold map_delete. split.
    + intros [Hx Hl]. apply in_remove in Hx. intuition.
    + intros [Hx Hl]. split; [apply in_in_remove|]; intuition.
Qed.

Lemma nodup_fold_delete l m : NoDup m -> NoDup (fold_left (map_delete dec) l m).
Proof.
  revert m. induction l as [|a l IH]; intros m Hm; simpl; [exact Hm|].
  apply IH, nodup_remove, Hm.
Qed.

Lemma length_fold_delete_le l m :
  List.length (fold_left (map_delete dec) l m) <= List.length m.
Proof.
  revert m. induction l as [|a l IH]; intro m; simpl; [lia|].
  etransitivity; [apply IH|]. apply remove_length_le.
Qed.

(** The size of the map is unchanged by the deletions exactly when no
    deleted key was there. *)
Lemma length_fold_delete_eq l m :
  List.length (fold_left (map_delete dec) l m) = List.length m <->
  (forall x, In x l -> ~ In x m).
Proof.
  revert m. induction l as [|a l IH]; intro m; simpl.
  - split; [intros _ x []|reflexivity].
  - destruct (in_dec dec a m) as [H|H].
    + split.
      * intro Hlen. exfalso.
        pose proof (length_fold_delete_le l (map_delete dec m a)) as Hle.
        assert (Hlt : List.length (map_delete dec m a) < List.length m)
          by (apply remove_length_lt; exact H).
        lia.
      * intro Hl. exfalso. exact (Hl a (or_introl eq_refl) H).
    + unfold map_delete at 2. rewrite (notin_remove dec m a H), IH.
      split; intros Hl x Hx; [destruct Hx; subst; auto|auto].
Qed.

Lemma not_forall_in (P : T -> Prop) (Pdec : forall x, {P x} + {~ P x}) l :
  ~ (forall x, In x l -> P x) <-> exists x, In x l /\ ~ P x.
Proof.
  induction l as [|a l IH]; simpl.
  - split; [intro H; exfalso; apply H; intros x []|intros (x & [] & _)].
  - destruct (Pdec a) as [Ha|Ha].
    + split.
      * intro H. destruct (proj1 IH) as (x & Hx & Hp).
        { intro Hall. apply H. intros x [<-|Hx]; auto. }
        exists x. split; [right|]; assumption.
      * intros (x & [<-|Hx] & Hp) Hall; [exact (Hp Ha)|exact (Hp (Hall x (or_intror Hx)))].
    + split.
      * intros _. exists a. split; [left; reflexivity|exact Ha].
      * intros _ Hall. exact (Ha (Hall a (or_introl eq_refl))).
Qed.

(** The keys of the resulting map. *)
Lemma updateSlice_in o a r x :
  In x (fst (updateSlice dec o a r)) <-> (In x o \/ In x a) /\ ~ In x r.
Proof.
  unfold updateSlice. simpl.
  rewrite in_fold_delete, !in_fold_set. simpl. tauto.
Qed.

Lemma updateSlice_nodup o a r : NoDup (fst (updateSlice dec o a r)).
Proof.
  unfold updateSlice. simpl.
  apply nodup_fold_delete, nodup_fold_set, nodup_fold_set. constructor.
Qed.

(** The [wasChanged] flag: a key was added that was not in [original],
    or a key was deleted that was in the map after the additions. *)
Lemma updateSlice_changed o a r :
  snd (updateSlice dec o a r) = true <->
  (exists x, In x a /\ ~ In x o) \/ (exists x, In x r /\ (In x o \/ In x a)).
Proof.
  unfold updateSlice. cbn [fst snd].
  set (m0 := fold_left (map_set dec) o []).
  set (m1 := fold_left (map_set dec) a m0).
  assert (H0 : forall x, In x m0 <-> In x o)
    by (intro x; unfold m0; rewrite in_fold_set; simpl; tauto).
  assert (H1 : forall x, In x m1 <-> In x o \/ In x a)
    by (intro x; unfold m1; rewrite in_fold_set, H0; tauto).
  rewrite orb_true_iff, !negb_true_iff, !Nat.eqb_neq.
  assert (E1 : List.length m0 <> List.length m1 <-> exists x, In x a /\ ~ In x o).
  { rewrite <- (not_forall_in (fun x => In x o) (fun x => in_dec dec x o)).
    split; intros Hne Hall; apply Hne.
    - symmetry. apply (proj2 (length_fold_set_eq a m0)).
      intros x Hx. apply H0, Hall, Hx.
    - intros x Hx. apply H0. symmetry in Hall.
      exact (proj1 (length_fold_set_eq a m0) Hall x Hx). }
  assert (E2 : List.length m1 <> List.length (fold_left (map_delete dec) r m1) <->
               exists x, In x r /\ (In x o \/ In x a)).
  { split.
    - intro Hne.
      destruct (proj1 (not_forall_in (fun x => ~ In x m1)
                  (fun x => match in_dec dec x m1 with
                            | left h => right (fun n => n h)
                            | right h => left h
                            end) r)) as (x & Hx & Hn).
      { intro Hall. apply Hne. symmetry. apply length_fold_delete_eq. exact Hall. }
      exists x. split; [exact Hx|]. apply H1. destruct (in_dec dec x m1); tauto.
    - intros (x & Hx & Hin) Heq. symmetry in Heq.
      rewrite length_fold_delete_eq in Heq. apply (Heq x Hx), H1, Hin. }
  rewrite E1, E2. reflexivity.
Qed.

(** When no key is both added and deleted, [wasChanged] is exactly set
    inequality of the result with [original]. *)
Lemma updateSlice_changed_iff_differs o a r :
  (forall x, In x a -> ~ In x r) ->
  snd (updateSlice dec o a r) = true <-> ~ same_elems (fst (updateSlice dec o a r)) o.
Proof.
  intro Hdisj. rewrite updateSlice_changed. unfold same_elems. split.
  - intros [(x & Hxa & Hxo)|(x & Hxr & Hx)] Hsame.
    + apply Hxo, Hsame, updateSlice_in. split; [right; exact Hxa|exact (Hdisj x Hxa)].
    + destruct Hx as [Hxo|Hxa].
      * apply (Hsame x) in Hxo. apply updateSlice_in in Hxo. tauto.
      * exact (Hdisj x Hxa Hxr).
  - intro Hdiff.
    destruct (existsb (fun x => if in_dec dec x o then false else true) a) eqn:Ea.
    + left. apply existsb_exists in Ea. destruct Ea as (x & Hx & Hb).
      exists x. destruct (in_dec dec x o); [discriminate|tauto].
    + destruct (existsb (fun x => if in_dec dec x o then true
                                  else if in_dec dec x a then true else false) r) eqn:Er.
      * right. apply existsb_exists in Er. destruct Er as (x & Hx & Hb).
        exists x. split; [exact Hx|].
        destruct (in_dec dec x o); [tauto|]. destruct (in_dec dec x a); [tauto|discriminate].
      * exfalso. apply Hdiff. intro x. rewrite updateSlice_in.
        assert (Ha : In x a -> In x o).
        { intro Hxa. destruct (in_dec dec x o) as [|Hn]; [assumption|].
          assert (Hf := existsb_exists (fun x => if in_dec dec x o then false else true) a).
          exfalso. rewrite Ea in Hf. enough (false = true) by discriminate.
          apply (proj2 Hf). exists x.
          destruct (in_dec dec x o); [tauto|auto]. }
        assert (Hr : In x o -> ~ In x r).
        { intros Hxo Hxr.
          assert (Hf := existsb_exists (fun x => if in_dec dec x o then true
                          else if in_dec dec x a then true else false) r).
          rewrite Er in Hf. enough (false = true) by discriminate.
          apply (proj2 Hf). exists x.
          destruct (in_dec dec x o); [auto|tauto]. }
        tauto.
Qed.

(** Applying [updateSlice] to its own result with the same additions and
    deletions leaves the set as it is; it reports no change when no key
    is both added and deleted. *)
Lemma updateSlice_again o a r :
  let n := fst (updateSlice dec o a r) in
  same_elems (fst (updateSlice dec n a r)) n /\
  ((forall x, In x a -> ~ In x r) -> snd (updateSlice dec n a r) = false).
Proof.
  intro n. split.
  - intro x. unfold n. rewrite !updateSlice_in. tauto.
  - intro Hdisj. destruct (snd (updateSlice dec n a r)) eqn:E; [|reflexivity].
    exfalso. apply updateSlice_changed in E.
    destruct E as [(x & Hxa & Hxn)|(x & Hxr & Hx)].
    + apply Hxn. unfold n. apply updateSlice_in. split; [right; exact Hxa|exact (Hdisj x Hxa)].
    + destruct Hx as [Hxn|Hxa].
      * unfold n in Hxn. apply updateSlice_in in Hxn. tauto.
      * exact (Hdisj x Hxa Hxr).
Qed.

Lemma nodup_map_inj {K} (f : T -> K) l :
  NoDup l -> (forall x y, In x l -> In y l -> f x = f y -> x = y) -> NoDup (map f l).
Proof.
  induction l as [|a l IH]; intros Hn Hinj; simpl; [constructor|].
  inversion Hn as [|? ? Ha Hl]; subst. constructor.
  - intro Hin. apply in_map_iff in Hin. destruct Hin as (y & Hy & Hyl).
    assert (a = y) by (apply Hinj; simpl; auto). subst. contradiction.
  - apply IH; [exact Hl|]. intros x y Hx Hy. apply Hinj; simpl; auto.
Qed.

(** Set semantics by a key: when elements with equal keys are equal, the
    keys of the result are the keys of [original] and [add] that are not
    keys of [remove], each once. *)
Lemma updateSlice_keys {K} (key : T -> K) o a r :
  (forall x y, In x (o ++ a ++ r) -> In y (o ++ a ++ r) -> key x = key y -> x = y) ->
  (forall k, In k (map key (fst (updateSlice dec o a r))) <->
             (In k (map key o) \/ In k (map key a)) /\ ~ In k (map key r)) /\
  NoDup (map key (fst (updateSlice dec o a r))).
Proof.
  intro Hinj. split.
  - intro k. rewrite !in_map_iff. split.
    + intros (x & <- & Hx). apply updateSlice_in in Hx. destruct Hx as [Hoa Hr]. split.
      * destruct Hoa; [left|right]; exists x; auto.
      * intros (y & Hy & Hyr). apply Hr.
        assert (y = x) as <-; [|exact Hyr].
        apply Hinj; [| |exact Hy]; rewrite !in_app_iff; tauto.
    + intros [Hoa Hr]. assert (Hx : exists x, key x = k /\ (In x o \/ In x a))
        by (destruct Hoa as [(x & ? & ?)|(x & ? & ?)]; exists x; auto).
      destruct Hx as (x & Hk & Hx). exists x. split; [exact Hk|].
      apply updateSlice_in. split; [exact Hx|]. intro Hxr. apply Hr. exists x. auto.
  - apply nodup_map_inj; [apply updateSlice_nodup|].
    intros x y Hx Hy. apply updateSlice_in in Hx, Hy.
    apply Hinj; rewrite !in_app_iff; tauto.
Qed.

End UpdateSliceFacts.

Example spec_scenario :
  let w := snd (runCycle demoClient [madeAssignment] world0) in
  store w = [mkRecipe "r" [made] [yummy]] /\
  List.length (filter (fun c => match c with CSetOrganisers _ _ => true | _ => false end)
                 (calls w)) = 1.
Proof. vm_compute. split; reflexivity. Qed.

(** * The Recipe Updater *)

Lemma updateRecipe_eq tx a rc :
  updateRecipe tx a rc =
  (mkRecipe (rSlug rc)
     (fst (updateSlice organiser_eq_dec (rCategories rc)
             (indexedSlice (categoriesMap tx) (Set_ (Categories a)))
             (indexedSlice (categoriesMap tx) (Unset (Categories a)))))
     (fst (updateSlice organiser_eq_dec (rTags rc)
             (indexedSlice (tagsMap tx) (Set_ (Tags a)))
             (indexedSlice (tagsMap tx) (Unset (Tags a))))),
   snd (updateSlice organiser_eq_dec (rCategories rc)
          (indexedSlice (categoriesMap tx) (Set_ (Categories a)))
          (indexedSlice (categoriesMap tx) (Unset (Categories a)))),
   snd (updateSlice organiser_eq_dec (rTags rc)
          (indexedSlice (tagsMap tx) (Set_ (Tags a)))
          (indexedSlice (tagsMap tx) (Unset (Tags a))))).
Proof.
  unfold updateRecipe.
  destruct (updateSlice organiser_eq_dec (rCategories rc) _ _).
  destruct (updateSlice organiser_eq_dec (rTags rc) _ _).
  reflexivity.
Qed.

(** The calls [processRecipe] makes for a recipe it could fetch: the
    fetch, then a write-back of the updated recipe exactly when one of
    the two flags is set. *)
Lemma processRecipe_calls {Store} (mealie : mealieClient Store) tx a s w rc :
  getRecipe mealie (store w) (slugSlug s) = Some rc ->
  calls (snd (processRecipe mealie tx a s w)) =
  (if snd (fst (updateRecipe tx a rc)) || snd (updateRecipe tx a rc)
   then [CSetOrganisers (S (nextCtx w)) (fst (fst (updateRecipe tx a rc)))]
   else []) ++ CGetRecipe (nextCtx w) (slugSlug s) :: calls w.
Proof.
  intro Hget. unfold processRecipe, bind, withTimeout, mGetRecipe, record.
  cbn -[updateRecipe].
  rewrite Hget. destruct (updateRecipe tx a rc) as [[rc' cc] tc].
  cbn -[updateRecipe]. destruct (cc || tc); [|reflexivity].
  unfold mSetOrganisers. cbn.
  destruct (setOrganisers mealie (store w) rc'). reflexivity.
Qed.

Example C1_scenario_calls :
  calls (snd (processRecipe demoClient (buildTaxonomy [made; notMade] [yummy; unknownTag])
                 madeAssignment (mkSlug "r") world0)) =
  [CSetOrganisers 1 (mkRecipe "r" [made] [yummy]); CGetRecipe 0 "r"].
Proof. reflexivity. Qed.

(** ** C1 *)

(** C1 (counterexample): with "Made" both set and unset, the categories
    of a recipe without categories stay the same set, yet
    [categoriesChanged] is true and a write-back is issued. *)
Lemma C1_counterexample :
  let '(rc', categoriesChanged, tagsChanged) :=
    updateRecipe snapshot conflictingAssignment (mkRecipe "r" [] []) in
  categoriesChanged = true /\ same_elems (rCategories rc') [] /\
  same_elems (rTags rc') [] /\
  calls (snd (processRecipe demoClient snapshot conflictingAssignment (mkSlug "r") world1)) =
  [CSetOrganisers 1 (mkRecipe "r" [] []); CGetRecipe 0 "r"].
Proof.
  vm_compute. split; [reflexivity|]. split; [tauto|]. split; [tauto|reflexivity].
Qed.

(** C1 (amended): for a recipe that was fetched, [categoriesChanged] is
    true exactly when a resolved set-term was not among the recipe's
    categories, or a resolved unset-term was among them or among the
    resolved set-terms; when no term is both set and unset this is
    exactly "the new categories differ from the old ones as a set". The
    same holds for tags, and a write-back is issued exactly when one of
    the two flags is true. *)
Theorem C1_changed_flags_and_writeback {Store} (mealie : mealieClient Store) tx a s w rc
  (Hget : getRecipe mealie (store w) (slugSlug s) = Some rc) :
  let addC := indexedSlice (categoriesMap tx) (Set_ (Categories a)) in
  let rmC := indexedSlice (categoriesMap tx) (Unset (Categories a)) in
  let addT := indexedSlice (tagsMap tx) (Set_ (Tags a)) in
  let rmT := indexedSlice (tagsMap tx) (Unset (Tags a)) in
  let '(rc', categoriesChanged, tagsChanged) := updateRecipe tx a rc in
  (categoriesChanged = true <->
     (exists x, In x addC /\ ~ In x (rCategories rc)) \/
     (exists x, In x rmC /\ (In x (rCategories rc) \/ In x addC))) /\
  ((forall x, In x addC -> ~ In x rmC) ->
     categoriesChanged = true <-> ~ same_elems (rCategories rc') (rCategories rc)) /\
  (tagsChanged = true <->
     (exists x, In x addT /\ ~ In x (rTags rc)) \/
     (exists x, In x rmT /\ (In x (rTags rc) \/ In x addT))) /\
  ((forall x, In x addT -> ~ In x rmT) ->
     tagsChanged = true <-> ~ same_elems (rTags rc') (rTags rc)) /\
  calls (snd (processRecipe mealie tx a s w)) =
  (if categoriesChanged || tagsChanged then [CSetOrganisers (S (nextCtx w)) rc'] else []) ++
  CGetRecipe (nextCtx w) (slugSlug s) :: calls w.
Proof.
  cbv zeta. rewrite (processRecipe_calls mealie tx a s w rc Hget).
  rewrite updateRecipe_eq. cbn [fst snd rCategories rTags].
  split; [apply updateSlice_changed|].
  split; [intro Hd; apply updateSlice_changed_iff_differs, Hd|].
  split; [apply updateSlice_changed|].
  split; [intro Hd; apply updateSlice_changed_iff_differs, Hd|].
  reflexivity.
Qed.

(** Witness of [C1_changed_flags_and_writeback]: the spec's example
    recipe, which gets one write-back. *)
Lemma C1_witness :
  getRecipe demoClient (store world0) (slugSlug (mkSlug "r")) = Some recipeR /\
  calls (snd (processRecipe demoClient snapshot madeAssignment (mkSlug "r") world0)) =
  [CSetOrganisers 1 (mkRecipe "r" [made] [yummy]); CGetRecipe 0 "r"].
Proof.
  split; [reflexivity|].
  exact (proj2 (proj2 (proj2 (proj2
    (C1_changed_flags_and_writeback demoClient snapshot madeAssignment
       (mkSlug "r") world0 recipeR eq_refl))))).
Defined.

(** ** C2 *)

(** C2 (counterexample): with "Made" both set and unset, the second
    application to a recipe without categories still reports
    [categoriesChanged = true], and issues a write-back again. *)
Lemma C2_counterexample :
  let rc1 := fst (fst (updateRecipe snapshot conflictingAssignment (mkRecipe "r" [] []))) in
  rc1 = mkRecipe "r" [] [] /\
  snd (fst (updateRecipe snapshot conflictingAssignment rc1)) = true /\
  calls (snd (processRecipe demoClient snapshot conflictingAssignment (mkSlug "r")
                (mkWorld [rc1] 0 []))) =
  [CSetOrganisers 1 rc1; CGetRecipe 0 "r"].
Proof. vm_compute. split; [reflexivity|split; reflexivity]. Qed.

(** C2 (amended): applying the update of an assignment to the result of
    a first application gives the same category and tag sets; the second
    application reports [categoriesChanged = false] when no resolved
    category is both set and unset, likewise for tags, and when both hold
    the recipe is fetched and not written back. When a resolved category
    (or tag) is both set and unset, the second application still reports
    [categoriesChanged = true] (or [tagsChanged = true]) and writes the
    recipe back. *)
Theorem C2_second_application {Store} (mealie : mealieClient Store) tx a rc s w
  (Hget : getRecipe mealie (store w) (slugSlug s) = Some (fst (fst (updateRecipe tx a rc)))) :
  let addC := indexedSlice (categoriesMap tx) (Set_ (Categories a)) in
  let rmC := indexedSlice (categoriesMap tx) (Unset (Categories a)) in
  let addT := indexedSlice (tagsMap tx) (Set_ (Tags a)) in
  let rmT := indexedSlice (tagsMap tx) (Unset (Tags a)) in
  let rc1 := fst (fst (updateRecipe tx a rc)) in
  let '(rc2, categoriesChanged, tagsChanged) := updateRecipe tx a rc1 in
  same_elems (rCategories rc2) (rCategories rc1) /\
  same_elems (rTags rc2) (rTags rc1) /\
  ((forall x, In x addC -> ~ In x rmC) -> categoriesChanged = false) /\
  ((forall x, In x addT -> ~ In x rmT) -> tagsChanged = false) /\
  ((forall x, In x addC -> ~ In x rmC) -> (forall x, In x addT -> ~ In x rmT) ->
   calls (snd (processRecipe mealie tx a s w)) = CGetRecipe (nextCtx w) (slugSlug s) :: calls w) /\
  ((exists x, In x addC /\ In x rmC) -> categoriesChanged = true) /\
  ((exists x, In x addT /\ In x rmT) -> tagsChanged = true) /\
  ((exists x, In x addC /\ In x rmC) \/ (exists x, In x addT /\ In x rmT) ->
   calls (snd (processRecipe mealie tx a s w)) =
   CSetOrganisers (S (nextCtx w)) rc2 :: CGetRecipe (nextCtx w) (slugSlug s) :: calls w).
Proof.
  cbv zeta. rewrite (processRecipe_calls mealie tx a s w _ Hget).
  rewrite !updateRecipe_eq. cbn [fst snd rCategories rTags].
  pose proof (updateSlice_again _ organiser_eq_dec (rCategories rc)
                (indexedSlice (categoriesMap tx) (Set_ (Categories a)))
                (indexedSlice (categoriesMap tx) (Unset (Categories a)))) as [HsC HfC].
  pose proof (updateSlice_again _ organiser_eq_dec (rTags rc)
                (indexedSlice (tagsMap tx) (Set_ (Tags a)))
                (indexedSlice (tagsMap tx) (Unset (Tags a)))) as [HsT HfT].
  split; [exact HsC|]. split; [exact HsT|].
  split; [exact HfC|]. split; [exact HfT|].
  split; [intros HdC HdT; rewrite (HfC HdC), (HfT HdT); reflexivity|].
  split; [intros (x & H1 & H2); apply updateSlice_changed; right; exists x; auto|].
  split; [intros (x & H1 & H2); apply updateSlice_changed; right; exists x; auto|].
  intros [(x & H1 & H2)|(x & H1 & H2)].
  - erewrite (proj2 (updateSlice_changed _ organiser_eq_dec _ _ _)
                (or_intror (ex_intro _ x (conj H2 (or_intror H1))))).
    reflexivity.
  - erewrite (proj2 (updateSlice_changed _ organiser_eq_dec _ _ _)
                (or_intror (ex_intro _ x (conj H2 (or_intror H1))))).
    rewrite orb_true_r. reflexivity.
Qed.

(** Witness of [C2_second_application]: the spec's example, applied a
    second time, makes no write. *)
Lemma C2_witness :
  let rc1 := fst (fst (updateRecipe snapshot madeAssignment recipeR)) in
  getRecipe demoClient [rc1] "r" = Some rc1 /\
  calls (snd (processRecipe demoClient snapshot madeAssignment (mkSlug "r")
                (mkWorld [rc1] 0 []))) = [CGetRecipe 0 "r"].
Proof.
  split; [reflexivity|].
  refine (proj1 (proj2 (proj2 (proj2 (proj2
    (C2_second_application demoClient snapshot madeAssignment recipeR (mkSlug "r")
       (mkWorld [fst (fst (updateRecipe snapshot madeAssignment recipeR))] 0 [])
       eq_refl))))) _ _);
  vm_compute; intros x Hx Hy;
  repeat (destruct Hx as [<-|Hx]; [repeat (destruct Hy as [Hy|Hy]; [discriminate Hy|]); exact Hy|]);
  exact Hx.
Defined.

(** ** C3 *)

(** C3: the new categories of a recipe are
    [(current ∪ resolved(set)) \ resolved(unset)] as a set without
    duplicates, membership decided by the equality of the terms; when the
    terms involved are unique by name, as the terms of a taxonomy are,
    the same holds of their names. Likewise for tags. *)
Theorem C3_set_semantics tx a rc
  (HuniqC : forall x y,
     In x (rCategories rc ++ indexedSlice (categoriesMap tx) (Set_ (Categories a))
           ++ indexedSlice (categoriesMap tx) (Unset (Categories a))) ->
     In y (rCategories rc ++ indexedSlice (categoriesMap tx) (Set_ (Categories a))
           ++ indexedSlice (categoriesMap tx) (Unset (Categories a))) ->
     Name x = Name y -> x = y)
  (HuniqT : forall x y,
     In x (rTags rc ++ indexedSlice (tagsMap tx) (Set_ (Tags a))
           ++ indexedSlice (tagsMap tx) (Unset (Tags a))) ->
     In y (rTags rc ++ indexedSlice (tagsMap tx) (Set_ (Tags a))
           ++ indexedSlice (tagsMap tx) (Unset (Tags a))) ->
     Name x = Name y -> x = y) :
  let addC := indexedSlice (categoriesMap tx) (Set_ (Categories a)) in
  let rmC := indexedSlice (categoriesMap tx) (Unset (Categories a)) in
  let addT := indexedSlice (tagsMap tx) (Set_ (Tags a)) in
  let rmT := indexedSlice (tagsMap tx) (Unset (Tags a)) in
  let rc' := fst (fst (updateRecipe tx a rc)) in
  (forall x, In x (rCategories rc') <-> (In x (rCategories rc) \/ In x addC) /\ ~ In x rmC) /\
  NoDup (rCategories rc') /\
  (forall n, In n (map Name (rCategories rc')) <->
             (In n (map Name (rCategories rc)) \/ In n (map Name addC)) /\
             ~ In n (map Name rmC)) /\
  NoDup (map Name (rCategories rc')) /\
  (forall x, In x (rTags rc') <-> (In x (rTags rc) \/ In x addT) /\ ~ In x rmT) /\
  NoDup (rTags rc') /\
  (forall n, In n (map Name (rTags rc')) <->
             (In n (map Name (rTags rc)) \/ In n (map Name addT)) /\
             ~ In n (map Name rmT)) /\
  NoDup (map Name (rTags rc')).
Proof.
  cbv zeta. rewrite updateRecipe_eq. cbn [fst snd rCategories rTags].
  destruct (updateSlice_keys _ organiser_eq_dec Name _ _ _ HuniqC) as [HnC HdC].
  destruct (updateSlice_keys _ organiser_eq_dec Name _ _ _ HuniqT) as [HnT HdT].
  split; [intro x; apply updateSlice_in|].
  split; [apply updateSlice_nodup|].
  split; [exact HnC|]. split; [exact HdC|].
  split; [intro x; apply updateSlice_in|].
  split; [apply updateSlice_nodup|].
  split; [exact HnT|]. exact HdT.
Qed.

(** Witness of [C3_set_semantics]: the spec's example recipe. *)
Lemma C3_witness :
  map Name (rCategories (fst (fst (updateRecipe snapshot madeAssignment recipeR)))) = ["Made"] /\
  NoDup (map Name (rTags (fst (fst (updateRecipe snapshot madeAssignment recipeR))))).
Proof.
  assert (H := C3_set_semantics snapshot madeAssignment recipeR).
  split; [reflexivity|].
  refine (proj2 (proj2 (proj2 (proj2 (proj2 (proj2 (proj2 (H _ _))))))));
  vm_compute; intros x y Hx Hy;
  repeat (destruct Hx as [<-|Hx]); try contradiction;
  repeat (destruct Hy as [<-|Hy]); try contradiction;
  intro Hn; solve [reflexivity | discriminate Hn].
Defined.

(** * The Query Evaluator and the Retention Resolver *)

Lemma ret_lookup_set m k v s :
  ret_lookup (ret_set m k v) s = if slug_eq_dec s k then Some v else ret_lookup m s.
Proof.
  induction m as [|[k' v'] m IH]; simpl.
  - destruct (slug_eq_dec s k); reflexivity.
  - destruct (slug_eq_dec k k') as [<-|Hne]; simpl.
    + destruct (slug_eq_dec s k); reflexivity.
    + destruct (slug_eq_dec s k') as [->|Hne']; rewrite ?IH.
      * destruct (slug_eq_dec k' k); [congruence|reflexivity].
      * reflexivity.
Qed.

Lemma ret_set_keys m k v x :
  In x (map fst (ret_set m k v)) <-> x = k \/ In x (map fst m).
Proof.
  induction m as [|[k' v'] m IH]; simpl; [intuition (subst; auto)|].
  destruct (slug_eq_dec k k') as [<-|Hne]; simpl; rewrite ?IH; intuition (subst; auto).
Qed.

Lemma ret_set_nodup m k v : NoDup (map fst m) -> NoDup (map fst (ret_set m k v)).
Proof.
  induction m as [|[k' v'] m IH]; intro Hn; simpl.
  - constructor; [intros []|constructor].
  - inversion Hn as [|? ? Hk Hm]; subst.
    destruct (slug_eq_dec k k') as [<-|Hne]; simpl; [exact Hn|].
    constructor; [|apply IH, Hm]. rewrite ret_set_keys. intuition.
Qed.

Lemma fold_ret_set_lookup l v m s :
  ret_lookup (fold_left (fun r x => ret_set r x v) l m) s =
  if in_dec slug_eq_dec s l then Some v else ret_lookup m s.
Proof.
  revert m. induction l as [|x l IH]; intro m; [reflexivity|].
  cbn [fold_left]. rewrite IH, ret_lookup_set.
  destruct (in_dec slug_eq_dec s (x :: l)) as [Hin|Hnin];
    destruct (in_dec slug_eq_dec s l); destruct (slug_eq_dec s x);
    simpl in *; try reflexivity; exfalso; intuition congruence.
Qed.

Lemma fold_ret_set_nodup l v m :
  NoDup (map fst m) -> NoDup (map fst (fold_left (fun r x => ret_set r x v) l m)).
Proof.
  revert m. induction l as [|x l IH]; intros m Hm; simpl; [exact Hm|].
  apply IH, ret_set_nodup, Hm.
Qed.

Lemma workingSet_in m s :
  NoDup (map fst m) -> In s (workingSet m) <-> ret_lookup m s = Some true.
Proof.
  induction m as [|[k v] m IH]; intro Hn; simpl; [split; [intros []|discriminate]|].
  inversion Hn as [|? ? Hk Hm]; subst.
  unfold workingSet in *. simpl. destruct (slug_eq_dec s k) as [->|Hne].
  - destruct v; simpl.
    + split; [reflexivity|left; reflexivity].
    + split; [|discriminate]. intro Hin. exfalso. apply Hk.
      apply in_map_iff in Hin. destruct Hin as ([k' v'] & Hk' & Hin). simpl in Hk'. subst.
      apply filter_In in Hin. apply in_map_iff. exists (k, v'). tauto.
  - rewrite <- IH by exact Hm. destruct v; simpl; [|reflexivity].
    split; [intros [Heq|H]; [congruence|exact H]|auto].
Qed.

Section QueryLoop.

Context {Store : Type}.
Variable mealie : mealieClient Store.

(** The query loop: its calls, in declared order, and the store it
    leaves alone. *)
Lemma evalQueries_world ctx qs r w :
  store (snd (evalQueries mealie ctx qs r w)) = store w /\
  nextCtx (snd (evalQueries mealie ctx qs r w)) = nextCtx w /\
  calls (snd (evalQueries mealie ctx qs r w)) =
  rev (map (fun q => CGetSlugs ctx (Params q)) (filter is_add_remove qs)) ++ calls w.
Proof.
  revert r w. induction qs as [|q qs IH]; intros r w; [simpl; auto|].
  cbn [evalQueries filter].
  change (String.eqb (Mode q) "add" || String.eqb (Mode q) "remove") with (is_add_remove q).
  destruct (is_add_remove q).
  - unfold bind, mGetSlugs. cbn [map rev].
    destruct (getSlugs mealie (store w) (Params q));
      (match goal with
       | |- context [evalQueries mealie ctx qs ?r' ?w'] =>
           destruct (IH r' w') as (H1 & H2 & H3)
       end;
       rewrite H1, H2, H3; simpl; rewrite <- app_assoc; auto).
  - apply IH.
Qed.

Lemma evalQueries_lookup ctx qs r w s :
  ret_lookup (fst (evalQueries mealie ctx qs r w)) s =
  lastMatchFrom mealie (store w) qs s (ret_lookup r s).
Proof.
  revert r w. induction qs as [|q qs IH]; intros r w; simpl; [reflexivity|].
  destruct (String.eqb (Mode q) "add" || String.eqb (Mode q) "remove").
  - unfold bind, mGetSlugs. simpl.
    destruct (getSlugs mealie (store w) (Params q)) as [l|]; rewrite IH; simpl;
      [rewrite fold_ret_set_lookup|]; reflexivity.
  - apply IH.
Qed.

Lemma evalQueries_nodup ctx qs r w :
  NoDup (map fst r) -> NoDup (map fst (fst (evalQueries mealie ctx qs r w))).
Proof.
  revert r w. induction qs as [|q qs IH]; intros r w Hr; simpl; [exact Hr|].
  destruct (String.eqb (Mode q) "add" || String.eqb (Mode q) "remove").
  - unfold bind, mGetSlugs. simpl.
    destruct (getSlugs mealie (store w) (Params q)); apply IH;
      [apply fold_ret_set_nodup|]; exact Hr.
  - apply IH, Hr.
Qed.

End QueryLoop.

(** ** C4 *)

(** C4: the searches of the queries run in declared order; for every
    recipe the retention value is the mode of the last [add]/[remove]
    query whose search returned it; the working set is exactly the
    recipes whose value is [true]; and for [add A] followed by
    [remove A∩B] the working set is [A \ B]. *)
Theorem C4_last_match_wins {Store} (mealie : mealieClient Store) ctx qs w :
  let r := fst (evalQueries mealie ctx qs [] w) in
  calls (snd (evalQueries mealie ctx qs [] w)) =
    rev (map (fun q => CGetSlugs ctx (Params q)) (filter is_add_remove qs)) ++ calls w /\
  (forall s, ret_lookup r s = lastMatchDecision mealie (store w) qs s) /\
  (forall s, In s (workingSet r) <-> lastMatchDecision mealie (store w) qs s = Some true) /\
  (forall pA pB la lab lb,
     getSlugs mealie (store w) pA = Some la ->
     getSlugs mealie (store w) pB = Some lab ->
     (forall s, In s lab <-> In s la /\ In s lb) ->
     forall s,
       In s (workingSet (fst (evalQueries mealie ctx
                               [mkQuery pA "add"; mkQuery pB "remove"] [] w))) <->
       In s la /\ ~ In s lb).
Proof.
  assert (Hws : forall qs' s,
            In s (workingSet (fst (evalQueries mealie ctx qs' [] w))) <->
            lastMatchDecision mealie (store w) qs' s = Some true).
  { intros qs' s. rewrite workingSet_in by (apply evalQueries_nodup; constructor).
    rewrite evalQueries_lookup. reflexivity. }
  cbv zeta. split; [apply evalQueries_world|].
  split; [intro s; apply evalQueries_lookup|].
  split; [intro s; apply Hws|].
  intros pA pB la lab lb HA HB Hab s. rewrite Hws.
  unfold lastMatchDecision. simpl. rewrite HA, HB.
  destruct (in_dec slug_eq_dec s la) as [Ha|Ha];
    destruct (in_dec slug_eq_dec s lab) as [Hb|Hb]; simpl;
    rewrite Hab in Hb; split; intro H; try discriminate; tauto.
Qed.

(** ** C9 *)

Section QueryFailure.

Context {Store : Type}.
Variable mealie : mealieClient Store.

Lemma evalQueries_app ctx l1 l2 r w :
  evalQueries mealie ctx (l1 ++ l2) r w =
  let (r1, w1) := evalQueries mealie ctx l1 r w in evalQueries mealie ctx l2 r1 w1.
Proof.
  revert r w. induction l1 as [|q l1 IH]; intros r w; [reflexivity|].
  cbn [app evalQueries].
  destruct (String.eqb (Mode q) "add" || String.eqb (Mode q) "remove"); [|apply IH].
  unfold bind, mGetSlugs.
  destruct (getSlugs mealie (store w) (Params q)); apply IH.
Qed.

Lemma evalQueries_fst_store ctx qs r w1 w2 :
  store w1 = store w2 ->
  fst (evalQueries mealie ctx qs r w1) = fst (evalQueries mealie ctx qs r w2).
Proof.
  revert r w1 w2. induction qs as [|q qs IH]; intros r w1 w2 Hs; [reflexivity|].
  cbn [evalQueries].
  destruct (String.eqb (Mode q) "add" || String.eqb (Mode q) "remove"); [|apply IH, Hs].
  unfold bind, mGetSlugs. rewrite Hs.
  destruct (getSlugs mealie (store w2) (Params q)); apply IH; exact Hs.
Qed.

End QueryFailure.

(** C9: a query whose search fails only leaves its call behind: the
    remaining queries run from the same retention map, and the final
    retention map is the one of the query list without it. *)
Theorem C9_failed_query_matches_nothing {Store} (mealie : mealieClient Store)
  ctx pre q post r w
  (Hmode : is_add_remove q = true)
  (Hfail : getSlugs mealie (store w) (Params q) = None) :
  evalQueries mealie ctx (pre ++ q :: post) r w =
    (let (r1, w1) := evalQueries mealie ctx pre r w in
     evalQueries mealie ctx post r1 (record (CGetSlugs ctx (Params q)) w1)) /\
  fst (evalQueries mealie ctx (pre ++ q :: post) r w) =
    fst (evalQueries mealie ctx (pre ++ post) r w).
Proof.
  assert (Hq : forall r1 w1, store w1 = store w ->
            evalQueries mealie ctx (q :: post) r1 w1 =
            evalQueries mealie ctx post r1 (record (CGetSlugs ctx (Params q)) w1)).
  { intros r1 w1 Hs. cbn [evalQueries]. unfold is_add_remove in Hmode. rewrite Hmode.
    unfold bind, mGetSlugs. rewrite Hs, Hfail. reflexivity. }
  pose proof (proj1 (evalQueries_world mealie ctx pre r w)) as Hs.
  split.
  - rewrite evalQueries_app.
    destruct (evalQueries mealie ctx pre r w) as [r1 w1] eqn:E.
    apply Hq. rewrite <- Hs. reflexivity.
  - rewrite !evalQueries_app.
    destruct (evalQueries mealie ctx pre r w) as [r1 w1] eqn:E. simpl in Hs.
    rewrite Hq by exact Hs. apply evalQueries_fst_store. reflexivity.
Qed.

(** Witness of [C9_failed_query_matches_nothing]: a failing search
    followed by a succeeding one keeps the recipe the second returns. *)
Lemma C9_witness :
  is_add_remove brokenQuery = true /\
  getSlugs partialFailClient (store world0) (Params brokenQuery) = None /\
  workingSet (fst (evalQueries partialFailClient 0 [brokenQuery; goodQuery] [] world0)) =
  [mkSlug "r"].
Proof.
  split; [reflexivity|]. split; [reflexivity|].
  pose proof (proj2 (C9_failed_query_matches_nothing partialFailClient 0 [] brokenQuery
                      [goodQuery] [] world0 eq_refl eq_refl)) as H.
  cbn [app] in H. rewrite H. reflexivity.
Defined.

(** * The cycle *)

Lemma contains_spec l x : contains l x = true <-> In x l.
Proof.
  unfold contains. rewrite existsb_exists. split.
  - intros (y & Hy & Heq). apply String.eqb_eq in Heq. subst. exact Hy.
  - intro Hx. exists x. split; [exact Hx|apply String.eqb_refl].
Qed.

Lemma existsb_not_contains known l :
  existsb (fun c => negb (contains known c)) l = true <-> exists n, In n l /\ ~ In n known.
Proof.
  rewrite existsb_exists. split.
  - intros (n & Hn & Hb). exists n. split; [exact Hn|].
    rewrite <- contains_spec. destruct (contains known n); [discriminate|congruence].
  - intros (n & Hn & Hk). exists n. split; [exact Hn|].
    rewrite <- contains_spec in Hk. destruct (contains known n); [tauto|reflexivity].
Qed.

Section CycleFacts.

Context {Store : Type}.
Variable mealie : mealieClient Store.

Lemma runCycle_taxonomy_ok as_ w cs ts :
  getOrganisers mealie (store w) "categories" = Some cs ->
  getOrganisers mealie (store w) "tags" = Some ts ->
  runCycle mealie as_ w = runAssignments mealie (buildTaxonomy cs ts) as_ (afterTaxonomy w).
Proof.
  intros Hc Ht. unfold runCycle, bind, withTimeout, mGetOrganisers, record.
  cbn [store nextCtx calls]. rewrite Hc, Ht. reflexivity.
Qed.

Lemma runCycle_taxonomy_failed as_ w :
  getOrganisers mealie (store w) "categories" = None \/
  getOrganisers mealie (store w) "tags" = None ->
  runCycle mealie as_ w = (tt, afterTaxonomy w).
Proof.
  intro Hf. unfold runCycle, bind, withTimeout, mGetOrganisers, record.
  cbn [store nextCtx calls].
  destruct Hf as [Hf|Hf]; rewrite Hf;
    [|destruct (getOrganisers mealie (store w) "categories")]; reflexivity.
Qed.

Lemma runAssignments_skip tx a pre post w :
  skipThis tx a = true ->
  runAssignments mealie tx (pre ++ a :: post) w = runAssignments mealie tx (pre ++ post) w.
Proof.
  intro Hs. revert w. induction pre as [|p pre IH]; intro w.
  - cbn [app runAssignments]. unfold bind, runAssignment. rewrite Hs. reflexivity.
  - cbn [app runAssignments]. unfold bind.
    destruct (runAssignment mealie tx p w). apply IH.
Qed.

End CycleFacts.

(** ** C5 *)

Lemma wrap64_small z : (- 2 ^ 63 <= z < 2 ^ 63)%Z -> wrap64 z = z.
Proof.
  intro Hz. unfold wrap64. cbv zeta. destruct (Z.le_gt_cases 0 z) as [Hpos|Hneg].
  - rewrite Z.mod_small by lia. destruct (Z.ltb_spec z (2 ^ 63)); lia.
  - rewrite <- (Z.mod_unique z (2 ^ 64) (-1) (z + 2 ^ 64)) by lia.
    destruct (Z.ltb_spec (z + 2 ^ 64) (2 ^ 63)); lia.
Qed.

(** C5: with a repeat interval [R = RepeatSecs] seconds and a cycle that
    took [timePassed] nanoseconds (both non-negative Go durations), the
    loop runs the cycle and then waits [max(R - timePassed, 0)]; when
    [timePassed >= R] it waits 0. *)
Theorem C5_next_wait {Store} (mealie : mealieClient Store) cfg nw w timePassed
  (HR : (0 <= RepeatSecs cfg <= 9223372036)%Z)
  (HT : (0 <= timePassed < 2 ^ 63)%Z) :
  let R := (RepeatSecs cfg * 1000000000)%Z in
  loopStep mealie cfg (Timer timePassed) (Running nw w) =
    Running (Z.max (R - timePassed) 0) (snd (runCycle mealie (Assignments cfg) w)) /\
  ((R <= timePassed)%Z -> nextWaitTime cfg timePassed = 0%Z).
Proof.
  assert (Hw : nextWaitTime cfg timePassed = Z.max (RepeatSecs cfg * 1000000000 - timePassed) 0).
  { unfold nextWaitTime. rewrite (wrap64_small (RepeatSecs cfg * 1000000000)) by lia.
    rewrite wrap64_small by lia. reflexivity. }
  cbv zeta. split.
  - unfold loopStep. rewrite Hw. reflexivity.
  - intro Hle. rewrite Hw. lia.
Qed.

(** Witness of [C5_next_wait]: a 30 s interval and a 12 s cycle leave an
    18 s wait. *)
Lemma C5_witness :
  exists w', loopStep demoClient (mkAssignments 30 30 [madeAssignment]) (Timer 12000000000)
               (Running 0 world0) = Running 18000000000 w'.
Proof.
  eexists.
  rewrite (proj1 (C5_next_wait demoClient (mkAssignments 30 30 [madeAssignment]) 0 world0
                    12000000000 ltac:(simpl; lia) ltac:(lia))).
  reflexivity.
Defined.

(** ** C6 *)

(** C6: when the taxonomy fetched in a cycle lacks a name that an
    assignment sets or unsets, the cycle runs as if the assignment were
    not in the list: it makes no call and changes nothing, and the other
    assignments run as they would without it. *)
Theorem C6_unknown_name_skips_assignment {Store} (mealie : mealieClient Store)
  pre a post w cs ts
  (Hc : getOrganisers mealie (store w) "categories" = Some cs)
  (Ht : getOrganisers mealie (store w) "tags" = Some ts)
  (Hmiss : (exists n, (In n (Set_ (Categories a)) \/ In n (Unset (Categories a))) /\
                      ~ In n (map Name cs)) \/
           (exists n, (In n (Set_ (Tags a)) \/ In n (Unset (Tags a))) /\
                      ~ In n (map Name ts))) :
  runCycle mealie (pre ++ a :: post) w = runCycle mealie (pre ++ post) w /\
  runCycle mealie [a] w = runCycle mealie [] w.
Proof.
  assert (Hs : skipThis (buildTaxonomy cs ts) a = true).
  { unfold skipThis. cbn [categories tags buildTaxonomy].
    rewrite !orb_true_iff, !existsb_not_contains.
    destruct Hmiss as [(n & [Hn|Hn] & Hk)|(n & [Hn|Hn] & Hk)];
      [left; left; left|left; left; right|left; right|right];
      exists n; auto. }
  rewrite !(runCycle_taxonomy_ok mealie _ w cs ts Hc Ht).
  split; [apply runAssignments_skip, Hs|].
  apply (runAssignments_skip mealie _ a [] [] _ Hs).
Qed.

(** Witness of [C6_unknown_name_skips_assignment]: an assignment naming
    the unknown category "Cooked" does not keep the spec's example
    assignment after it from updating the recipe. *)
Lemma C6_witness :
  store (snd (runCycle demoClient [unknownNameAssignment; madeAssignment] world0)) =
  [mkRecipe "r" [made] [yummy]].
Proof.
  assert (H : runCycle demoClient ([] ++ unknownNameAssignment :: [madeAssignment]) world0 =
              runCycle demoClient ([] ++ [madeAssignment]) world0).
  { refine (proj1 (C6_unknown_name_skips_assignment demoClient [] unknownNameAssignment
                     [madeAssignment] world0 [made; notMade] [yummy; unknownTag] _ _ _));
      [reflexivity|reflexivity|].
    left. exists "Cooked". split; [left; left; reflexivity|].
    simpl. intros [Hn|[Hn|[]]]; discriminate Hn. }
  cbn [app] in H. rewrite H. reflexivity.
Defined.

(** ** C8 *)

(** C8: a failed page request makes [getOrganisers] fail; when the
    category or the tag taxonomy cannot be fetched the cycle makes no
    other call and changes nothing, and the loop goes on running with
    the next wait computed as after any cycle. *)
Theorem C8_taxonomy_failure_skips_cycle {Store} (mealie : mealieClient Store)
  cfg nw w timePassed
  (Hfail : getOrganisers mealie (store w) "categories" = None \/
           getOrganisers mealie (store w) "tags" = None) :
  loopStep mealie cfg (Timer timePassed) (Running nw w) =
    Running (nextWaitTime cfg timePassed)
      (mkWorld (store w) (S (S (nextCtx w)))
         (CGetOrganisers (S (nextCtx w)) "tags" ::
          CGetOrganisers (nextCtx w) "categories" :: calls w)) /\
  (forall (PStore : Type) (fetchPage : PStore -> string -> Z -> option (list organiser * Z))
          st k reqs res p,
     getOrganisersRel PStore fetchPage st k reqs res -> In (p, false) reqs -> res = None).
Proof.
  split.
  - unfold loopStep. rewrite (runCycle_taxonomy_failed mealie _ w Hfail). reflexivity.
  - intros PStore fetchPage st k reqs res p Hrel Hin.
    destruct Hrel as [Hk1 Hk2|reqs res0 Hk Hpages]; [reflexivity|].
    enough (res0 = None) as -> by reflexivity.
    induction Hpages as [page lastPage acc Hlt|page lastPage acc Hle Hf
                        |page lastPage acc items pages reqs res0 Hle Hf Hrest IH].
    + destruct Hin.
    + reflexivity.
    + destruct Hin as [Heq|Hin]; [discriminate|exact (IH Hin)].
Qed.

(** Witness of [C8_taxonomy_failure_skips_cycle]: with the taxonomy
    unreachable the recipe is left alone and the loop keeps running. *)
Lemma C8_witness :
  loopStep taxonomyDownClient (mkAssignments 30 30 [madeAssignment]) (Timer 0)
    (Running 0 world0) =
  Running 30000000000 (mkWorld [recipeR] 2 [CGetOrganisers 1 "tags"; CGetOrganisers 0 "categories"]).
Proof.
  rewrite (proj1 (C8_taxonomy_failure_skips_cycle taxonomyDownClient
                    (mkAssignments 30 30 [madeAssignment]) 0 world0 0 (or_introl eq_refl))).
  reflexivity.
Defined.

(** ** C10 *)

(** C10: [launchAssignmentLoop] starts no loop and returns no error
    exactly when the assignment list is empty; it never returns an
    error. *)
Theorem C10_empty_assignments_no_loop {Store} (w : World Store) cfg :
  (Assignments cfg = [] <-> launchAssignmentLoop cfg w = (None, None)) /\
  (fst (launchAssignmentLoop cfg w) = None <-> Assignments cfg = []) /\
  snd (launchAssignmentLoop cfg w) = None.
Proof.
  unfold launchAssignmentLoop.
  destruct (Assignments cfg) as [|a as_]; simpl; repeat split;
    try intro H; try reflexivity; discriminate.
Qed.

(** ** C7 *)

(** C7 (counterexample): the two searches of one assignment run under
    the same deadline. *)
Lemma C7_counterexample :
  calls (snd (runCycle demoClient [twoQueryAssignment] world0)) =
    [CSetOrganisers 4 (mkRecipe "r" [notMade; made] []); CGetRecipe 3 "r";
     CGetSlugs 2 [("queryFilter", "lastMade IS NULL")];
     CGetSlugs 2 [("queryFilter", "lastMade IS NOT NULL")];
     CGetOrganisers 1 "tags"; CGetOrganisers 0 "categories"] /\
  ~ NoDup (map ctx_of (calls (snd (runCycle demoClient [twoQueryAssignment] world0)))).
Proof.
  split; [reflexivity|].
  vm_compute. intro H.
  inversion H as [|x l Hx Hl]; subst. inversion Hl as [|y l' Hy Hl']; subst.
  inversion Hl' as [|z l'' Hz Hl'']; subst. apply Hz. simpl. auto.
Qed.

Section Deadlines.

Context {Store : Type}.
Variable mealie : mealieClient Store.

Lemma inv_fresh_call (w : World Store) (st : Store) c :
  cycle_inv w -> ctx_of c = nextCtx w -> is_search c = false ->
  cycle_inv (mkWorld st (S (nextCtx w)) (c :: calls w)).
Proof.
  intros [Hb Ho] Hc Hs. split.
  - intros x [<-|Hx]; simpl; [lia|]. specialize (Hb x Hx). lia.
  - intros x Hx Hxs. cbn [calls map]. destruct (Nat.eq_dec (ctx_of c) (ctx_of x)) as [He|Hne].
    + rewrite He. rewrite count_occ_cons_eq by reflexivity.
      f_equal. apply count_occ_not_In. intro Hin. apply in_map_iff in Hin.
      destruct Hin as (y & Hy & Hin). specialize (Hb y Hin). lia.
    + rewrite count_occ_cons_neq by exact Hne.
      destruct Hx as [<-|Hx]; [congruence|]. apply Ho; assumption.
Qed.

Lemma inv_withTimeout (w : World Store) :
  cycle_inv w -> query_inv (nextCtx w) (snd (withTimeout w)).
Proof.
  intros [Hb Ho]. unfold withTimeout, query_inv, cycle_inv, ctx_bounded in *.
  cbn [snd calls nextCtx]. split; [split|split].
  - intros x Hx. specialize (Hb x Hx). lia.
  - exact Ho.
  - lia.
  - intros x Hx Heq. specialize (Hb x Hx). lia.
Qed.

Lemma inv_evalQueries ctx qs r (w : World Store) :
  query_inv ctx w -> query_inv ctx (snd (evalQueries mealie ctx qs r w)).
Proof.
  destruct (evalQueries_world mealie ctx qs r w) as (Hst & Hn & Hc).
  set (fresh := rev (map (fun q => CGetSlugs ctx (Params q)) (filter is_add_remove qs))) in Hc.
  assert (Hfresh : forall c, In c fresh -> is_search c = true /\ ctx_of c = ctx).
  { intros c Hin. unfold fresh in Hin. apply in_rev, in_map_iff in Hin.
    destruct Hin as (q & <- & _). auto. }
  unfold query_inv, cycle_inv, ctx_bounded, own_deadlines.
  intros [[Hb Ho] [Hlt Hq]]. rewrite Hc, Hn.
  split; [split|split].
  - intros x Hx. apply in_app_iff in Hx as [Hx|Hx].
    + destruct (Hfresh x Hx) as [_ ->]. exact Hlt.
    + exact (Hb x Hx).
  - intros x Hx Hxs. rewrite map_app, count_occ_app.
    apply in_app_iff in Hx as [Hx|Hx]; [destruct (Hfresh x Hx); congruence|].
    rewrite (Ho x Hx Hxs).
    enough (count_occ Nat.eq_dec (map ctx_of fresh) (ctx_of x) = 0) by lia.
    apply count_occ_not_In. intro Hin. apply in_map_iff in Hin.
    destruct Hin as (y & Hy & Hiny). destruct (Hfresh y Hiny) as [_ Hyc].
    rewrite (Hq x Hx (eq_trans (eq_sym Hy) Hyc)) in Hxs. discriminate.
  - exact Hlt.
  - intros x Hx Heq. apply in_app_iff in Hx as [Hx|Hx];
      [apply (Hfresh x Hx)|apply (Hq x Hx Heq)].
Qed.

Lemma inv_processRecipe tx a s (w : World Store) :
  cycle_inv w -> cycle_inv (snd (processRecipe mealie tx a s w)).
Proof.
  intro Hi. unfold processRecipe, bind, withTimeout, mGetRecipe, record.
  cbn -[updateRecipe].
  assert (H1 : cycle_inv (mkWorld (store w) (S (nextCtx w))
                            (CGetRecipe (nextCtx w) (slugSlug s) :: calls w)))
    by (apply inv_fresh_call; auto).
  destruct (getRecipe mealie (store w) (slugSlug s)) as [rc|]; [|exact H1].
  destruct (updateRecipe tx a rc) as [[rc' cc] tc].
  destruct (cc || tc); [|exact H1].
  unfold mSetOrganisers. cbn.
  destruct (setOrganisers mealie (store w) rc') as [st' ok]. cbn.
  apply (inv_fresh_call _ st' (CSetOrganisers (S (nextCtx w)) rc') H1); reflexivity.
Qed.

Lemma inv_processRecipes tx a ss (w : World Store) :
  cycle_inv w -> cycle_inv (snd (processRecipes mealie tx a ss w)).
Proof.
  revert w. induction ss as [|s ss IH]; intros w Hi; [exact Hi|].
  cbn [processRecipes]. unfold bind.
  pose proof (inv_processRecipe tx a s w Hi) as H.
  destruct (processRecipe mealie tx a s w) as [u w']. apply IH, H.
Qed.

Lemma inv_runAssignments tx as_ (w : World Store) :
  cycle_inv w -> cycle_inv (snd (runAssignments mealie tx as_ w)).
Proof.
  revert w. induction as_ as [|a as_ IH]; intros w Hi; [exact Hi|].
  cbn [runAssignments]. unfold bind.
  assert (H : cycle_inv (snd (runAssignment mealie tx a w))).
  { unfold runAssignment. destruct (skipThis tx a); [exact Hi|].
    unfold bind.
    pose proof (inv_evalQueries (nextCtx w) (Queries a) [] _ (inv_withTimeout w Hi)) as Hq.
    destruct (withTimeout w) as [ctx w1] eqn:E. simpl in Hq.
    injection E as <- <-.
    destruct (evalQueries mealie (nextCtx w) (Queries a) [] _) as [r w2].
    apply inv_processRecipes, Hq. }
  destruct (runAssignment mealie tx a w) as [u w']. apply IH, H.
Qed.

End Deadlines.

(** C7 (amended): every taxonomy fetch, recipe fetch and recipe write of
    a cycle runs under a fresh deadline of its own that no other call
    shares, while all searches of one assignment run under the single
    deadline created for its query loop. *)
Theorem C7_deadlines {Store} (mealie : mealieClient Store) as_ w
  (Hinv : cycle_inv w) :
  own_deadlines (calls (snd (runCycle mealie as_ w))) /\
  ctx_bounded (snd (runCycle mealie as_ w)) /\
  (forall ctx qs r (w' : World Store), exists fresh,
     calls (snd (evalQueries mealie ctx qs r w')) = fresh ++ calls w' /\
     forall c, In c fresh -> is_search c = true /\ ctx_of c = ctx).
Proof.
  assert (Hc : cycle_inv (snd (runCycle mealie as_ w))).
  { assert (H2 : cycle_inv (afterTaxonomy w)).
    { unfold afterTaxonomy.
      apply (inv_fresh_call (mkWorld (store w) (S (nextCtx w))
                               (CGetOrganisers (nextCtx w) "categories" :: calls w)));
        [apply inv_fresh_call|..]; auto. }
    destruct (getOrganisers mealie (store w) "categories") as [cs|] eqn:Ec;
      [destruct (getOrganisers mealie (store w) "tags") as [ts|] eqn:Et|].
    - rewrite (runCycle_taxonomy_ok mealie as_ w cs ts Ec Et).
      apply inv_runAssignments, H2.
    - rewrite runCycle_taxonomy_failed by (right; exact Et). exact H2.
    - rewrite runCycle_taxonomy_failed by (left; exact Ec). exact H2. }
  destruct Hc as [Hb Ho]. split; [exact Ho|]. split; [exact Hb|].
  intros ctx qs r w'.
  exists (rev (map (fun q => CGetSlugs ctx (Params q)) (filter is_add_remove qs))).
  split; [apply evalQueries_world|].
  intros c Hin. apply in_rev, in_map_iff in Hin. destruct Hin as (q & <- & _). auto.
Qed.

(** Witness of [C7_deadlines]: a cycle from a fresh world. *)
Lemma C7_witness :
  cycle_inv world0 /\
  own_deadlines (calls (snd (runCycle demoClient [twoQueryAssignment] world0))).
Proof.
  assert (H0 : cycle_inv world0) by (split; intros c []).
  split; [exact H0|].
  exact (proj1 (C7_deadlines demoClient [twoQueryAssignment] world0 H0)).
Defined.

(** ** Whitespace normalisation *)

Section CollapseFacts.

Lemma isSpace_blank : isSpace 32%Z = true.
Proof. reflexivity. Qed.

Lemma fieldsAux_words s cur :
  Forall (fun r => isSpace r = false) cur ->
  Forall (fun w => w <> [] /\ Forall (fun r => isSpace r = false) w) (fieldsAux cur s).
Proof.
  revert cur. induction s as [|r s IH]; intros cur Hc; simpl.
  - destruct cur as [|x cur]; constructor; [|constructor].
    split; [intro H; apply (f_equal (@List.length _)) in H; rewrite length_rev in H; discriminate|].
    apply Forall_rev. exact Hc.
  - destruct (isSpace r) eqn:Hr.
    + destruct cur as [|x cur]; [apply IH; constructor|].
      constructor; [|apply IH; constructor].
      split; [intro H; apply (f_equal (@List.length _)) in H; rewrite length_rev in H; discriminate|].
      apply Forall_rev. exact Hc.
    + apply IH. constructor; assumption.
Qed.

Lemma fieldsAux_nonempty s x cur : fieldsAux (x :: cur) s <> [].
Proof.
  revert x cur. induction s as [|r s IH]; intros x cur; simpl.
  - discriminate.
  - destruct (isSpace r); [discriminate|apply IH].
Qed.

Lemma Join_app_single l x sep :
  l <> [] -> Join (l ++ [x]) sep = Join l sep ++ sep ++ x.
Proof.
  induction l as [|a l IH]; intro Hl; [congruence|].
  destruct l as [|b l]; [reflexivity|].
  replace (Join ((a :: b :: l) ++ [x]) sep)
    with (a ++ sep ++ Join ((b :: l) ++ [x]) sep) by reflexivity.
  rewrite IH by discriminate.
  replace (Join (a :: b :: l) sep) with (a ++ sep ++ Join (b :: l) sep) by reflexivity.
  rewrite !app_assoc. reflexivity.
Qed.

Lemma rev_Join ws sep : rev (Join ws sep) = Join (map (@rev rune) (rev ws)) (rev sep).
Proof.
  induction ws as [|w ws IH]; [reflexivity|].
  destruct ws as [|w' ws]; [reflexivity|].
  replace (Join (w :: w' :: ws) sep) with (w ++ sep ++ Join (w' :: ws) sep) by reflexivity.
  rewrite !rev_app_distr, IH.
  change (rev (w :: w' :: ws)) with (rev (w' :: ws) ++ [w]).
  rewrite map_app. cbn [map]. rewrite Join_app_single.
  - rewrite <- app_assoc. reflexivity.
  - intro H. apply (f_equal (@List.length _)) in H. rewrite length_map, length_rev in H.
    discriminate.
Qed.

Lemma startsNonSpace_Join ws :
  Forall (fun w => w <> [] /\ Forall (fun r => isSpace r = false) w) ws ->
  startsNonSpace (Join ws [32%Z]) = true.
Proof.
  intro H. destruct H as [|w ws [Hw Hn] _]; [reflexivity|].
  destruct w as [|r w]; [congruence|]. inversion Hn; subst.
  destruct ws; simpl; rewrite H1; reflexivity.
Qed.

Lemma words_rev ws :
  Forall (fun w => w <> [] /\ Forall (fun r => isSpace r = false) w) ws ->
  Forall (fun w => w <> [] /\ Forall (fun r => isSpace r = false) w) (map (@rev rune) (rev ws)).
Proof.
  intro H. apply Forall_map, Forall_rev. eapply Forall_impl; [|exact H].
  intros w [Hw Hn]. split; [|apply Forall_rev, Hn].
  intro E. apply Hw. apply (f_equal (@rev _)) in E. rewrite rev_involutive in E. exact E.
Qed.

Lemma noAdjacentSpace_app w t :
  Forall (fun r => isSpace r = false) w ->
  noAdjacentSpace (w ++ t) = noAdjacentSpace t.
Proof.
  induction w as [|a w IH]; intro H; [reflexivity|].
  inversion H as [|? ? Ha Hw]; subst. cbn [app].
  destruct (w ++ t) as [|r2 u] eqn:E.
  - apply app_eq_nil in E as [_ ->]. reflexivity.
  - change (noAdjacentSpace (a :: r2 :: u))
      with (negb (isSpace a && isSpace r2) && noAdjacentSpace (r2 :: u)).
    rewrite Ha. exact (IH Hw).
Qed.

Lemma Join_collapsed ws :
  Forall (fun w => w <> [] /\ Forall (fun r => isSpace r = false) w) ws ->
  collapsed (Join ws [32%Z]) = true.
Proof.
  intro H. unfold collapsed.
  rewrite startsNonSpace_Join by exact H.
  rewrite rev_Join, startsNonSpace_Join by (apply words_rev, H).
  rewrite !andb_true_r. apply andb_true_intro. split.
  - apply forallb_forall. induction H as [|w ws [Hw Hn] Hws IH]; [intros _ []|].
    intros r Hr. destruct ws as [|w' ws].
    + simpl in Hr.
      rewrite (proj1 (Forall_forall _ _) Hn r Hr). reflexivity.
    + replace (Join (w :: w' :: ws) [32%Z]) with (w ++ [32%Z] ++ Join (w' :: ws) [32%Z])
        in Hr by reflexivity.
      apply in_app_iff in Hr as [Hr|[<-|Hr]].
      * rewrite (proj1 (Forall_forall _ _) Hn r Hr). reflexivity.
      * reflexivity.
      * apply IH, Hr.
  - induction H as [|w ws [Hw Hn] Hws IH]; [reflexivity|].
    destruct ws as [|w' ws].
    + simpl. rewrite <- (app_nil_r w), noAdjacentSpace_app by exact Hn. reflexivity.
    + replace (Join (w :: w' :: ws) [32%Z]) with (w ++ [32%Z] ++ Join (w' :: ws) [32%Z])
        by reflexivity.
      rewrite noAdjacentSpace_app by exact Hn. cbn [app].
      pose proof (startsNonSpace_Join (w' :: ws) Hws) as Hs.
      destruct (Join (w' :: ws) [32%Z]) as [|r2 u] eqn:E.
      * reflexivity.
      * change (noAdjacentSpace (32%Z :: r2 :: u))
          with (negb (isSpace 32%Z && isSpace r2) && noAdjacentSpace (r2 :: u)).
        simpl in Hs. destruct (isSpace r2); [discriminate|]. exact IH.
Qed.

Lemma trimLeftSpace_id s : startsNonSpace s = true -> trimLeftSpace s = s.
Proof.
  destruct s as [|r s]; [reflexivity|]. simpl. destruct (isSpace r); [discriminate|reflexivity].
Qed.

Lemma TrimSpace_collapsed s : collapsed s = true -> TrimSpace s = s.
Proof.
  unfold collapsed, TrimSpace. intro H.
  apply andb_prop in H as [H _]. apply andb_prop in H as [H H2].
  apply andb_prop in H as [_ H1].
  rewrite (trimLeftSpace_id s H1), (trimLeftSpace_id (rev s) H2).
  apply rev_involutive.
Qed.

Lemma collapseWhitespace_Join s : collapseWhitespace s = Join (Fields s) [32%Z].
Proof.
  unfold collapseWhitespace. apply TrimSpace_collapsed, Join_collapsed.
  apply fieldsAux_words. constructor.
Qed.

Lemma collapseWhitespace_collapsed_aux s : collapsed (collapseWhitespace s) = true.
Proof.
  rewrite collapseWhitespace_Join. apply Join_collapsed, fieldsAux_words. constructor.
Qed.

Lemma startsNonSpace_app l x :
  l <> [] -> startsNonSpace (l ++ x) = startsNonSpace l.
Proof. destruct l; [congruence|reflexivity]. Qed.

Lemma Join_fieldsAux s cur :
  Forall (fun r => isSpace r = false) cur ->
  forallb (fun r => negb (isSpace r) || Z.eqb r 32) s = true ->
  noAdjacentSpace s = true ->
  startsNonSpace (rev s) = true ->
  (cur = [] -> startsNonSpace s = true) ->
  Join (fieldsAux cur s) [32%Z] = rev cur ++ s.
Proof.
  revert cur. induction s as [|r s IH]; intros cur Hc Hb Ha Hl Hf.
  - destruct cur; simpl; [reflexivity|]. rewrite app_nil_r. reflexivity.
  - cbn [fieldsAux]. cbn [forallb] in Hb. apply andb_prop in Hb as [Hr Hb].
    assert (Hs : noAdjacentSpace s = true).
    { destruct s as [|r2 s]; [reflexivity|]. simpl in Ha.
      apply andb_prop in Ha as [_ Ha]. exact Ha. }
    assert (Hls : s <> [] -> startsNonSpace (rev s) = true).
    { intro Hne. simpl in Hl. rewrite startsNonSpace_app in Hl; [exact Hl|].
      intro E. apply Hne. apply (f_equal (@rev _)) in E. rewrite rev_involutive in E. exact E. }
    destruct (isSpace r) eqn:Hsp.
    + destruct cur as [|x cur]; [specialize (Hf eq_refl); simpl in Hf; rewrite Hsp in Hf; discriminate|].
      simpl in Hr. apply Z.eqb_eq in Hr.
      destruct s as [|r2 s].
      * simpl in Hl. rewrite Hsp in Hl. discriminate.
      * assert (H2 : isSpace r2 = false).
        { simpl in Ha. rewrite Hsp in Ha. destruct (isSpace r2); [discriminate|reflexivity]. }
        subst r. cbn [fieldsAux]. rewrite H2.
        pose proof (fieldsAux_nonempty s r2 []) as Hne.
        destruct (fieldsAux [r2] s) as [|f fs] eqn:E; [congruence|].
        change (Join (rev (x :: cur) :: f :: fs) [32%Z])
          with (rev (x :: cur) ++ [32%Z] ++ Join (f :: fs) [32%Z]).
        rewrite <- E.
        assert (IH' := IH [] (Forall_nil _) Hb Hs (Hls ltac:(discriminate))
                          (fun _ => ltac:(simpl; rewrite H2; reflexivity))).
        cbn [fieldsAux] in IH'. rewrite H2 in IH'. rewrite IH'. reflexivity.
    + rewrite IH.
      * simpl. rewrite <- app_assoc. reflexivity.
      * constructor; assumption.
      * exact Hb.
      * exact Hs.
      * destruct s; [reflexivity|]. apply Hls. discriminate.
      * discriminate.
Qed.

Lemma collapseWhitespace_fixed s : collapsed s = true -> collapseWhitespace s = s.
Proof.
  intro H. unfold collapseWhitespace, Fields.
  rewrite (Join_fieldsAux s []); [apply TrimSpace_collapsed, H|constructor|..];
    unfold collapsed in H; repeat (apply andb_prop in H as [H ?]); auto.
Qed.

Lemma filter_Join ws :
  Forall (fun w => w <> [] /\ Forall (fun r => isSpace r = false) w) ws ->
  filter (fun r => negb (isSpace r)) (Join ws [32%Z]) = List.concat ws.
Proof.
  assert (Hw : forall w, Forall (fun r => isSpace r = false) w ->
                 filter (fun r => negb (isSpace r)) w = w).
  { induction w as [|r w IH]; intro H; [reflexivity|]. inversion H; subst.
    simpl. rewrite H2. simpl. f_equal. apply IH. assumption. }
  induction 1 as [|w ws [_ Hn] Hws IH]; [reflexivity|].
  destruct ws as [|w' ws].
  - simpl. rewrite app_nil_r. apply Hw, Hn.
  - cbn [Join List.concat]. rewrite filter_app. cbn [app filter].
    rewrite isSpace_blank. simpl. rewrite Hw by exact Hn. f_equal. exact IH.
Qed.

Lemma concat_fieldsAux s cur :
  List.concat (fieldsAux cur s) = rev cur ++ filter (fun r => negb (isSpace r)) s.
Proof.
  revert cur. induction s as [|r s IH]; intro cur; simpl.
  - destruct cur; simpl; [reflexivity|]. rewrite !app_nil_r. reflexivity.
  - destruct (isSpace r); simpl.
    + destruct cur as [|x cur]; [apply IH|]. simpl. rewrite IH. reflexivity.
    + rewrite IH. simpl. rewrite <- app_assoc. reflexivity.
Qed.

Lemma collapseWhitespace_filter s :
  filter (fun r => negb (isSpace r)) (collapseWhitespace s) =
  filter (fun r => negb (isSpace r)) s.
Proof.
  rewrite collapseWhitespace_Join, filter_Join.
  - unfold Fields. rewrite concat_fieldsAux. reflexivity.
  - apply fieldsAux_words. constructor.
Qed.

End CollapseFacts.

(** X: [collapseWhitespace] always yields the collapsed form: its only
    white space is the blank, with no white space at either end and no
    two white space runes next to each other. *)
Theorem collapseWhitespace_output_collapsed s : collapsed (collapseWhitespace s) = true.
Proof. apply collapseWhitespace_collapsed_aux. Qed.

(** X: a string is left unchanged by [collapseWhitespace] exactly when it
    is already in collapsed form. *)
Theorem collapseWhitespace_fixed_iff s : collapseWhitespace s = s <-> collapsed s = true.
Proof.
  split; [intro H; rewrite <- H; apply collapseWhitespace_collapsed_aux|].
  apply collapseWhitespace_fixed.
Qed.

(** X: [collapseWhitespace] is idempotent. *)
Theorem collapseWhitespace_idempotent s :
  collapseWhitespace (collapseWhitespace s) = collapseWhitespace s.
Proof. apply collapseWhitespace_fixed, collapseWhitespace_collapsed_aux. Qed.

(** X: [collapseWhitespace] keeps every non-white-space rune, in order,
    and drops or adds none. *)
Theorem collapseWhitespace_keeps_text s :
  filter (fun r => negb (isSpace r)) (collapseWhitespace s) =
  filter (fun r => negb (isSpace r)) s.
Proof. apply collapseWhitespace_filter. Qed.

(** X: [collapseWhitespace] yields the empty string exactly when its
    input consists of white space only. *)
Theorem collapseWhitespace_empty_iff s :
  collapseWhitespace s = [] <-> forallb isSpace s = true.
Proof.
  split.
  - intro H. apply forallb_forall. intros r Hr.
    destruct (isSpace r) eqn:Hs; [reflexivity|].
    assert (Hin : In r (filter (fun r => negb (isSpace r)) s))
      by (apply filter_In; rewrite Hs; auto).
    rewrite <- collapseWhitespace_filter, H in Hin. destruct Hin.
  - intro H. rewrite collapseWhitespace_Join. unfold Fields.
    enough (E : fieldsAux [] s = []) by (rewrite E; reflexivity).
    induction s as [|r s IH]; [reflexivity|].
    simpl in H. apply andb_prop in H as [Hr H]. simpl. rewrite Hr. apply IH, H.
Qed.

(** ** Normalising recipes *)

Section NormaliseFacts.

Lemma normaliseEach_none {A} (f : A -> A) xs :
  Mealie.normaliseEach f xs = None <-> In None xs.
Proof.
  induction xs as [|[x|] xs IH]; simpl.
  - split; [discriminate|intros []].
  - destruct (Mealie.normaliseEach f xs); split.
    + discriminate.
    + intros [H|H]; [discriminate|]. apply IH in H. discriminate.
    + intros _. right. apply IH. reflexivity.
    + reflexivity.
  - split; auto.
Qed.

Lemma normaliseEach_some {A} (f : A -> A) xs ys :
  Mealie.normaliseEach f xs = Some ys -> ys = map (option_map f) xs.
Proof.
  revert ys. induction xs as [|[x|] xs IH]; intros ys H; simpl in *.
  - congruence.
  - destruct (Mealie.normaliseEach f xs) as [zs|] eqn:E; [|discriminate].
    injection H as <-. rewrite (IH zs eq_refl). reflexivity.
  - discriminate.
Qed.

Lemma normaliseEach_idem {A} (f : A -> A) xs ys :
  (forall x, f (f x) = f x) ->
  Mealie.normaliseEach f xs = Some ys -> Mealie.normaliseEach f ys = Some ys.
Proof.
  intros Hf. revert ys. induction xs as [|[x|] xs IH]; intros ys H; simpl in *.
  - injection H as <-. reflexivity.
  - destruct (Mealie.normaliseEach f xs) as [zs|] eqn:E; [|discriminate].
    injection H as <-. simpl. rewrite (IH zs eq_refl), Hf. reflexivity.
  - discriminate.
Qed.

Lemma collapse_idem s : collapseWhitespace (collapseWhitespace s) = collapseWhitespace s.
Proof. apply collapseWhitespace_fixed, collapseWhitespace_collapsed_aux. Qed.

Lemma category_normalise_idem c :
  Mealie.category_normalise (Mealie.category_normalise c) = Mealie.category_normalise c.
Proof. unfold Mealie.category_normalise. simpl. rewrite collapse_idem. reflexivity. Qed.

Lemma tag_normalise_idem t :
  Mealie.tag_normalise (Mealie.tag_normalise t) = Mealie.tag_normalise t.
Proof. unfold Mealie.tag_normalise. simpl. rewrite collapse_idem. reflexivity. Qed.

Lemma instruction_normalise_idem i :
  Mealie.instruction_normalise (Mealie.instruction_normalise i) = Mealie.instruction_normalise i.
Proof. unfold Mealie.instruction_normalise. simpl. rewrite collapse_idem. reflexivity. Qed.

Lemma ingredient_normalise_idem i :
  Mealie.ingredient_normalise (Mealie.ingredient_normalise i) = Mealie.ingredient_normalise i.
Proof. unfold Mealie.ingredient_normalise. simpl. rewrite collapse_idem. reflexivity. Qed.

Lemma comment_normalise_idem c :
  Mealie.comment_normalise (Mealie.comment_normalise c) = Mealie.comment_normalise c.
Proof.
  unfold Mealie.comment_normalise, Mealie.user_normalise. simpl.
  rewrite !collapse_idem. reflexivity.
Qed.

End NormaliseFacts.

(** X: normalising a recipe panics exactly when one of its slices of
    categories, tags, instructions, ingredients or comments holds a [nil]
    pointer. *)
Theorem normalise_panics_iff r :
  Mealie.normalise r = None <->
  In None (Mealie.Categories r) \/ In None (Mealie.Tags r) \/
  In None (Mealie.Instructions r) \/ In None (Mealie.Ingredients r) \/
  In None (Mealie.Comments r).
Proof.
  unfold Mealie.normalise.
  rewrite <- (normaliseEach_none Mealie.category_normalise (Mealie.Categories r)),
          <- (normaliseEach_none Mealie.tag_normalise (Mealie.Tags r)),
          <- (normaliseEach_none Mealie.instruction_normalise (Mealie.Instructions r)),
          <- (normaliseEach_none Mealie.ingredient_normalise (Mealie.Ingredients r)),
          <- (normaliseEach_none Mealie.comment_normalise (Mealie.Comments r)).
  destruct (Mealie.normaliseEach Mealie.category_normalise (Mealie.Categories r));
  destruct (Mealie.normaliseEach Mealie.tag_normalise (Mealie.Tags r));
  destruct (Mealie.normaliseEach Mealie.instruction_normalise (Mealie.Instructions r));
  destruct (Mealie.normaliseEach Mealie.ingredient_normalise (Mealie.Ingredients r));
  destruct (Mealie.normaliseEach Mealie.comment_normalise (Mealie.Comments r));
  intuition discriminate.
Qed.

(** X: a normalised recipe is left unchanged by normalising it again, and
    normalising keeps its [Slug] and [Servings] as they were. *)
Theorem normalise_idempotent r r' :
  Mealie.normalise r = Some r' ->
  Mealie.normalise r' = Some r' /\ Mealie.Slug r' = Mealie.Slug r /\
  Mealie.Servings r' = Mealie.Servings r.
Proof.
  unfold Mealie.normalise at 1.
  destruct (Mealie.normaliseEach Mealie.category_normalise (Mealie.Categories r)) as [cs|] eqn:Ec;
    [|discriminate].
  destruct (Mealie.normaliseEach Mealie.tag_normalise (Mealie.Tags r)) as [ts|] eqn:Et;
    [|discriminate].
  destruct (Mealie.normaliseEach Mealie.instruction_normalise (Mealie.Instructions r)) as [is|] eqn:Ei;
    [|discriminate].
  destruct (Mealie.normaliseEach Mealie.ingredient_normalise (Mealie.Ingredients r)) as [gs|] eqn:Eg;
    [|discriminate].
  destruct (Mealie.normaliseEach Mealie.comment_normalise (Mealie.Comments r)) as [ms|] eqn:Em;
    [|discriminate].
  intro H. injection H as <-. split; [|split; reflexivity].
  unfold Mealie.normalise. cbn [Mealie.Categories Mealie.Tags Mealie.Instructions
    Mealie.Ingredients Mealie.Comments Mealie.ID Mealie.Slug Mealie.Name Mealie.Servings
    Mealie.TotalTime Mealie.Description Mealie.OrgURL Mealie.Image].
  rewrite (normaliseEach_idem _ _ _ category_normalise_idem Ec),
    (normaliseEach_idem _ _ _ tag_normalise_idem Et),
    (normaliseEach_idem _ _ _ instruction_normalise_idem Ei),
    (normaliseEach_idem _ _ _ ingredient_normalise_idem Eg),
    (normaliseEach_idem _ _ _ comment_normalise_idem Em).
  rewrite !collapse_idem. reflexivity.
Qed.

(** ** Paginated retrieval of organisers *)

Section PagesFacts.

Variable Store : Type.
Variable fetchPage : Store -> string -> Z -> option (list organiser * Z).

Lemma pagesLoop_shape st k page lastPage acc reqs res :
  pagesLoop Store fetchPage st k page lastPage acc reqs res ->
  (forall i, i < List.length reqs -> fst (nth i reqs (0%Z, true)) = (page + Z.of_nat i)%Z) /\
  (forall i, S i < List.length reqs -> snd (nth i reqs (0%Z, true)) = true) /\
  (res = None <-> reqs <> [] /\ snd (last reqs (0%Z, true)) = false) /\
  (forall l, res = Some l ->
     l = acc ++ List.concat (map (fun p => match fetchPage st k p with
                                          | Some (items, _) => items
                                          | None => [] end) (map fst reqs))).
Proof.
  induction 1 as [page lastPage acc Hlt|page lastPage acc Hle Hf
                 |page lastPage acc items pages reqs res Hle Hf Hl IH].
  - refine (conj _ (conj _ (conj _ _))); simpl.
    + intros i Hi. lia.
    + intros i Hi. lia.
    + split; [discriminate|]. intros [Hn _]. congruence.
    + intros l Hs. injection Hs as <-. rewrite app_nil_r. reflexivity.
  - refine (conj _ (conj _ (conj _ _))); simpl.
    + intros [|i] Hi; simpl; lia.
    + intros i Hi. lia.
    + split; [intros _; split; [discriminate|reflexivity]|reflexivity].
    + intros l Hs. discriminate.
  - destruct IH as (H1 & H2 & H3 & H4). refine (conj _ (conj _ (conj _ _))).
    + intros [|i] Hi; simpl; [lia|]. simpl in Hi. rewrite H1 by lia. lia.
    + intros [|i] Hi; simpl; [reflexivity|]. simpl in Hi. apply H2. lia.
    + split.
      * intro Hn. apply H3 in Hn as [Hne Hlast]. split; [discriminate|].
        destruct reqs; [congruence|]. exact Hlast.
      * intros [_ Hlast]. apply H3. destruct reqs as [|x reqs].
        -- simpl in Hlast. discriminate.
        -- split; [discriminate|exact Hlast].
    + intros l Hs. rewrite (H4 l Hs). simpl. rewrite Hf, app_assoc. reflexivity.
Qed.

Lemma pagesLoop_det st k page lastPage acc r1 s1 r2 s2 :
  pagesLoop Store fetchPage st k page lastPage acc r1 s1 ->
  pagesLoop Store fetchPage st k page lastPage acc r2 s2 ->
  r1 = r2 /\ s1 = s2.
Proof.
  intro H. revert r2 s2.
  induction H as [page lastPage acc Hlt|page lastPage acc Hle Hf
                 |page lastPage acc items pages reqs res Hle Hf Hl IH];
    intros r2 s2 H2; inversion H2 as [|? ? ? ? Hf2|? ? ? items2 pages2 reqs2 res2 ? Hf2 Hl2];
    subst; try lia; try congruence; auto.
  rewrite Hf in Hf2. injection Hf2 as <- <-.
  destruct (IH _ _ Hl2) as [-> ->]. auto.
Qed.

Lemma pagesLoop_stable st k items n :
  (forall p, fetchPage st k p = Some (items p, n)) ->
  forall m page acc, (0 <= page)%Z -> Z.to_nat (n - page + 1) = m ->
  pagesLoop Store fetchPage st k page n acc
    (map (fun i => (Z.of_nat i, true)) (seq (Z.to_nat page) m))
    (Some (acc ++ List.concat (map (fun i => items (Z.of_nat i)) (seq (Z.to_nat page) m)))).
Proof.
  intros Hf m. induction m as [|m IH]; intros page acc Hp Hm.
  - simpl. rewrite app_nil_r. apply PagesDone. lia.
  - simpl. rewrite Z2Nat.id by exact Hp.
    apply PagesNext with (items := items page) (pages := n); [lia|apply Hf|].
    replace (S (Z.to_nat page)) with (Z.to_nat (page + 1)) by lia.
    rewrite app_assoc. apply IH; lia.
Qed.

End PagesFacts.

(** X: for categories and tags, [getOrganisers] requests pages 1, 2, ...,
    n in this order, n >= 1; every request but the last succeeded, and the
    retrieval fails exactly when the last one failed. *)
Theorem getOrganisers_requests Store fetchPage (st : Store) k reqs res
  (Hrun : getOrganisersRel Store fetchPage st k reqs res)
  (Hk : k = "categories" \/ k = "tags") :
  reqs <> [] /\
  (forall i, i < List.length reqs -> fst (nth i reqs (0%Z, true)) = Z.of_nat (S i)) /\
  (forall i, S i < List.length reqs -> snd (nth i reqs (0%Z, true)) = true) /\
  (res = None <-> snd (last reqs (0%Z, true)) = false).
Proof.
  inversion Hrun as [Hk1 Hk2|reqs' res' _ Hl]; subst; [destruct Hk; contradiction|].
  destruct (pagesLoop_shape _ _ _ _ _ _ _ _ _ Hl) as (H1 & H2 & H3 & _).
  assert (Hne : reqs <> []) by (inversion Hl; subst; [lia|discriminate|discriminate]).
  refine (conj Hne (conj _ (conj H2 _))).
  - intros i Hi. rewrite H1 by exact Hi. lia.
  - split.
    + intro Hn. destruct res'; [discriminate|]. apply H3. reflexivity.
    + intro Hn. assert (res' = None) as -> by (apply H3; auto). reflexivity.
Qed.

(** X: when [getOrganisers] succeeds, its organisers are the items of the
    pages it requested, concatenated in page order, each stamped with the
    requested kind. *)
Theorem getOrganisers_result Store fetchPage (st : Store) k reqs l
  (Hrun : getOrganisersRel Store fetchPage st k reqs (Some l)) :
  l = map (setKind k)
        (List.concat (map (fun p => match fetchPage st k p with
                                    | Some (items, _) => items
                                    | None => [] end) (map fst reqs))) /\
  Forall (fun o => kind o = k) l.
Proof.
  inversion Hrun as [|reqs' res' _ Hl]; subst.
  destruct res' as [l'|]; simpl in *; [|discriminate].
  match goal with Hs : Some _ = Some l |- _ => injection Hs as <- end.
  destruct (pagesLoop_shape _ _ _ _ _ _ _ _ _ Hl) as (_ & _ & _ & H4).
  rewrite (H4 l' eq_refl). simpl. split; [reflexivity|].
  apply Forall_forall. intros o Ho. apply in_map_iff in Ho as (o' & <- & _). reflexivity.
Qed.

(** X: if the store reports the same number of pages n on every page of a
    kind, [getOrganisers] requests exactly the pages 1 to max(n, 1) and
    returns their items in page order; at least one page is always
    requested, even when n is 0. *)
Theorem getOrganisers_stable_pages Store fetchPage (st : Store) k items n
  (Hk : k = "categories" \/ k = "tags")
  (Hf : forall p, fetchPage st k p = Some (items p, n)) reqs res :
  getOrganisersRel Store fetchPage st k reqs res <->
  reqs = map (fun i => (Z.of_nat i, true)) (seq 1 (Z.to_nat (Z.max n 1))) /\
  res = Some (map (setKind k)
                (List.concat (map (fun i => items (Z.of_nat i)) (seq 1 (Z.to_nat (Z.max n 1)))))).
Proof.
  assert (Hrun : pagesLoop Store fetchPage st k 1 10 []
                   (map (fun i => (Z.of_nat i, true)) (seq 1 (Z.to_nat (Z.max n 1))))
                   (Some (List.concat (map (fun i => items (Z.of_nat i))
                                         (seq 1 (Z.to_nat (Z.max n 1))))))).
  { replace (Z.to_nat (Z.max n 1)) with (S (Z.to_nat (n - 2 + 1))) by lia.
    simpl. apply PagesNext with (items := items 1%Z) (pages := n); [lia|apply Hf|].
    apply (pagesLoop_stable Store fetchPage st k items n Hf _ 2 (items 1%Z)); lia. }
  split.
  - intro H. inversion H as [Hk1 Hk2|reqs' res' _ Hl]; subst; [destruct Hk; contradiction|].
    destruct (pagesLoop_det _ _ _ _ _ _ _ _ _ _ _ Hl Hrun) as [-> ->]. auto.
  - intros [-> ->]. exact (GetOrganisersPages Store fetchPage st k _ _ Hk Hrun).
Qed.

Lemma demoPages_run :
  getOrganisersRel unit (demoPages 2) tt "tags" [(1%Z, true); (2%Z, true)]
    (Some (map (setKind "tags") (([] ++ [yummy]) ++ [yummy]))).
Proof.
  refine (GetOrganisersPages unit (demoPages 2) tt "tags" _
            (Some (([] ++ [yummy]) ++ [yummy])) (or_intror eq_refl) _).
  eapply PagesNext; [lia|reflexivity|].
  eapply PagesNext; [lia|reflexivity|].
  apply PagesDone. lia.
Qed.

Lemma getOrganisers_requests_witness :
  let reqs := [(1%Z, true); (2%Z, true)] in
  reqs <> [] /\
  (forall i, i < List.length reqs -> fst (nth i reqs (0%Z, true)) = Z.of_nat (S i)) /\
  (forall i, S i < List.length reqs -> snd (nth i reqs (0%Z, true)) = true) /\
  (Some (map (setKind "tags") (([] ++ [yummy]) ++ [yummy])) = None <->
   snd (last reqs (0%Z, true)) = false).
Proof.
  apply (getOrganisers_requests unit (demoPages 2) tt "tags"); [exact demoPages_run|].
  right; reflexivity.
Defined.

Lemma getOrganisers_result_witness :
  map (setKind "tags") (([] ++ [yummy]) ++ [yummy]) =
  map (setKind "tags")
    (List.concat (map (fun p => match demoPages 2 tt "tags" p with
                                | Some (items, _) => items
                                | None => [] end) (map fst [(1%Z, true); (2%Z, true)]))) /\
  Forall (fun o => kind o = "tags") (map (setKind "tags") (([] ++ [yummy]) ++ [yummy])).
Proof.
  apply (getOrganisers_result unit (demoPages 2) tt "tags"). exact demoPages_run.
Defined.

Lemma getOrganisers_stable_pages_witness :
  getOrganisersRel unit (demoPages 0) tt "tags" [(1%Z, true)]
    (Some [setKind "tags" yummy]).
Proof.
  apply (proj2 (getOrganisers_stable_pages unit (demoPages 0) tt "tags" (fun _ => [yummy]) 0
                  (or_intror eq_refl) (fun _ => eq_refl) _ _)).
  split; reflexivity.
Defined.

Lemma normalise_idempotent_witness :
  let r' := match Mealie.normalise demoMealieRecipe with
            | Some x => x | None => Mealie.zeroRecipe end in
  Mealie.normalise demoMealieRecipe = Some r' /\
  (Mealie.normalise r' = Some r' /\ Mealie.Slug r' = Mealie.Slug demoMealieRecipe /\
   Mealie.Servings r' = Mealie.Servings demoMealieRecipe).
Proof.
  intro r'. assert (E : Mealie.normalise demoMealieRecipe = Some r') by (vm_compute; reflexivity).
  split; [exact E|]. exact (normalise_idempotent demoMealieRecipe r' E).
Defined.

(** ** The slug listing and its query parameters *)


Lemma strmap_lookup_notin {A} (m : strmap A) k :
  ~ In k (map fst m) -> strmap_lookup m k = None.
Proof.
  induction m as [|[k' v] m IH]; intro H; [reflexivity|]. simpl in *.
  destruct (string_dec k k'); [subst; tauto|]. apply IH. tauto.
Qed.


Section SlugFacts.

Variable Store : Type.
Variable fetchSlugs : Store -> values -> option (list slug * Z).


End SlugFacts.






(** ** The query of [getRecipes] *)

Lemma addAll_lookup vs q key k :
  strmap_lookup (fold_left (fun q v => Values_Add q key v) vs q) k =
  if string_dec k key
  then match vs with
       | [] => strmap_lookup q k
       | _ => Some (match strmap_lookup q key with Some b => b | None => [] end ++ vs)
       end
  else strmap_lookup q k.
Proof.
  revert q. induction vs as [|v vs IH]; intro q; simpl.
  - destruct (string_dec k key); reflexivity.
  - rewrite IH. unfold Values_Add, strmap_insert. simpl.
    destruct (string_dec k key) as [->|Hne].
    + destruct (string_dec key key) as [_|]; [|congruence].
      destruct vs; destruct (strmap_lookup q key); simpl;
        try rewrite <- app_assoc; reflexivity.
    + destruct (string_dec k key); [congruence|reflexivity].
Qed.

Lemma buildQuery_gen qp q k :
  NoDup (map fst qp) ->
  (forall k', In k' (map fst qp) -> strmap_lookup q k' = None) ->
  strmap_lookup
    (fold_left (fun q kv => fold_left (fun q v => Values_Add q (fst kv) v) (snd kv) q) qp q) k =
  match strmap_lookup qp k with
  | Some (v :: vs) => Some (v :: vs)
  | _ => strmap_lookup q k
  end.
Proof.
  revert q. induction qp as [|[key vs] qp IH]; intros q Hnd Hq; [reflexivity|].
  simpl in Hnd |- *. inversion Hnd as [|? ? Hnin Hnd']; subst.
  rewrite IH; [|exact Hnd'|].
  - rewrite addAll_lookup. destruct (string_dec k key) as [->|Hne].
    + rewrite (strmap_lookup_notin qp key Hnin).
      rewrite (Hq key (or_introl eq_refl)). destruct vs; reflexivity.
    + reflexivity.
  - intros k' Hk'. rewrite addAll_lookup.
    destruct (string_dec k' key) as [->|]; [contradiction|].
    apply Hq. right. exact Hk'.
Qed.

(** X: with the distinct keys of a Go map, the query [getRecipes] builds
    holds every key of [queryParams] that has values, with exactly its
    values in order, and nothing else: a key with no values is dropped. *)
Theorem buildQuery_lookup queryParams (Hnd : NoDup (map fst queryParams)) k :
  strmap_lookup (buildQuery queryParams) k =
  match strmap_lookup queryParams k with
  | Some (v :: vs) => Some (v :: vs)
  | _ => None
  end.
Proof.
  unfold buildQuery. rewrite buildQuery_gen by (assumption || reflexivity).
  destruct (strmap_lookup queryParams k) as [[|v vs]|]; reflexivity.
Qed.

Lemma buildQuery_lookup_witness :
  NoDup (map fst [("tags", []); ("queryFilter", ["a"; "b"])]) /\
  strmap_lookup (buildQuery [("tags", []); ("queryFilter", ["a"; "b"])]) "tags" =
  match strmap_lookup [("tags", []); ("queryFilter", ["a"; "b"])] "tags" with
  | Some (v :: vs) => Some (v :: vs)
  | _ => None
  end.
Proof.
  assert (Hnd : NoDup (map fst [("tags", ([] : list string)); ("queryFilter", ["a"; "b"])])).
  { simpl. constructor; [simpl; intros [H|[]]; discriminate H|].
    constructor; [intros []|constructor]. }
  split; [exact Hnd|]. exact (buildQuery_lookup _ Hnd "tags").
Defined.

(** ** Fetching the recipes of the slugs *)

Section FetchFacts.

Variable Store : Type.
Variable fetchRecipe : Store -> string -> Mealie.recipe + string.

Lemma fetchAll_fold_none st slugs :
  fold_right (fun s acc =>
      match recipeSlot Store fetchRecipe st s, acc with
      | Some p, Some l => Some (p :: l)
      | _, _ => None
      end) (Some []) slugs = None <->
  exists s, In s slugs /\ recipeSlot Store fetchRecipe st s = None.
Proof.
  induction slugs as [|s slugs IH]; simpl.
  - split; [discriminate|]. intros (s & [] & _).
  - destruct (recipeSlot Store fetchRecipe st s) as [p|] eqn:Es.
    + destruct (fold_right _ (Some []) slugs) as [l|] eqn:Ef.
      * split; [discriminate|]. intros (s' & [<-|Hin] & Hs'); [congruence|].
        assert (Hn : Some l = None) by (apply IH; eauto). discriminate.
      * split; [intros _|reflexivity].
        destruct (proj1 IH eq_refl) as (s' & Hin & Hs'). eauto.
    + split; [intros _; eauto|reflexivity].
Qed.

Lemma fetchAll_fold_some st slugs l :
  fold_right (fun s acc =>
      match recipeSlot Store fetchRecipe st s, acc with
      | Some p, Some l => Some (p :: l)
      | _, _ => None
      end) (Some []) slugs = Some l ->
  l = map (fun s => match recipeSlot Store fetchRecipe st s with
                    | Some p => p
                    | None => (Mealie.zeroRecipe, None)
                    end) slugs.
Proof.
  revert l. induction slugs as [|s slugs IH]; intros l H; simpl in H.
  - injection H as <-. reflexivity.
  - destruct (recipeSlot Store fetchRecipe st s) as [p|] eqn:Es; [|discriminate].
    destruct (fold_right _ (Some []) slugs) as [l'|] eqn:Ef; [|discriminate].
    injection H as <-. simpl. rewrite Es, (IH l' eq_refl). reflexivity.
Qed.

End FetchFacts.

(** X: when no goroutine of [getRecipes] panics, the i-th recipe is the
    normalised recipe of the i-th slug, or the zero recipe when its
    request failed, and the joined errors are those of the failed requests
    in slug order. *)
Theorem fetchAll_fetched Store fetchRecipe (st : Store) slugs rs errs
  (Hf : fetchAll Store fetchRecipe st slugs = RecipesFetched rs errs) :
  rs = map (fun s => match fetchRecipe st (slugSlug s) with
                     | inl r => match Mealie.normalise r with
                                | Some r' => r' | None => Mealie.zeroRecipe end
                     | inr _ => Mealie.zeroRecipe
                     end) slugs /\
  errs = flat_map (fun s => match fetchRecipe st (slugSlug s) with
                            | inl _ => [] | inr e => [e] end) slugs.
Proof.
  unfold fetchAll in Hf.
  destruct (fold_right _ (Some []) slugs) as [l|] eqn:Ef; [|discriminate].
  injection Hf as <- <-.
  assert (Hall : forall s, In s slugs -> recipeSlot Store fetchRecipe st s <> None).
  { intros s Hin Hs. assert (Hn : Some l = None) by
      (rewrite <- Ef; apply fetchAll_fold_none; eauto). discriminate. }
  rewrite (fetchAll_fold_some Store fetchRecipe st slugs l Ef). split.
  - rewrite map_map. apply map_ext_in. intros s Hin. specialize (Hall s Hin).
    unfold recipeSlot in *. destruct (fetchRecipe st (slugSlug s)) as [r|e]; [|reflexivity].
    destruct (Mealie.normalise r); [reflexivity|contradiction].
  - rewrite flat_map_concat_map, flat_map_concat_map, map_map. f_equal.
    apply map_ext_in. intros s Hin. specialize (Hall s Hin).
    unfold recipeSlot in *. destruct (fetchRecipe st (slugSlug s)) as [r|e]; [|reflexivity].
    destruct (Mealie.normalise r); [reflexivity|contradiction].
Qed.

Lemma fetchAll_fetched_witness :
  let fetch := fun (_ : unit) (s : string) =>
                 if String.eqb s "apple-pie" then inl demoMealieRecipe
                 else inr "unexpected status code 404" in
  let rs := match Mealie.normalise demoMealieRecipe with
            | Some r => [r; Mealie.zeroRecipe] | None => [] end in
  fetchAll unit fetch tt [mkSlug "apple-pie"; mkSlug "gone"] =
    RecipesFetched rs ["unexpected status code 404"] /\
  (rs = map (fun s => match fetch tt (slugSlug s) with
                      | inl r => match Mealie.normalise r with
                                 | Some r' => r' | None => Mealie.zeroRecipe end
                      | inr _ => Mealie.zeroRecipe
                      end) [mkSlug "apple-pie"; mkSlug "gone"] /\
   ["unexpected status code 404"] =
     flat_map (fun s => match fetch tt (slugSlug s) with
                        | inl _ => [] | inr e => [e] end) [mkSlug "apple-pie"; mkSlug "gone"]).
Proof.
  intros fetch rs.
  assert (E : fetchAll unit fetch tt [mkSlug "apple-pie"; mkSlug "gone"] =
              RecipesFetched rs ["unexpected status code 404"]) by (vm_compute; reflexivity).
  split; [exact E|]. exact (fetchAll_fetched unit fetch tt _ _ _ E).
Defined.

(** X: [getRecipes] panics (a nil element in a slice of a fetched recipe,
    hit by [normalise]) exactly when one of the slugs yields such a
    recipe; a failed request never panics. *)
Theorem fetchAll_panic_iff Store fetchRecipe (st : Store) slugs :
  fetchAll Store fetchRecipe st slugs = RecipesPanic <->
  exists s r, In s slugs /\ fetchRecipe st (slugSlug s) = inl r /\
              Mealie.normalise r = None.
Proof.
  unfold fetchAll.
  destruct (fold_right _ (Some []) slugs) as [l|] eqn:Ef.
  - split; [discriminate|]. intros (s & r & Hin & Hr & Hn).
    assert (Hx : Some l = None).
    { rewrite <- Ef. apply fetchAll_fold_none. exists s. split; [exact Hin|].
      unfold recipeSlot. rewrite Hr, Hn. reflexivity. }
    discriminate.
  - split; [intros _|reflexivity].
    destruct (proj1 (fetchAll_fold_none Store fetchRecipe st slugs) Ef) as (s & Hin & Hs).
    unfold recipeSlot in Hs. destruct (fetchRecipe st (slugSlug s)) as [r|e] eqn:Er;
      [|discriminate].
    destruct (Mealie.normalise r) eqn:En; [discriminate|]. eauto.
Qed.

(** ** Downloading media *)

(** X: a downloaded body is always returned, also when it fails
    verification; it fails exactly when the server does not call it an
    image and the extension is jpg or jpeg and the bytes are no JPEG, or
    the extension is webp and they are no WebP; the error names the
    resulting MIME type. *)
Theorem getMedia_verification ToLower jpegDecodes webpDecodes filename body ct :
  let ext := ToLower (last (splitDot filename) "") in
  let res := getMedia ToLower jpegDecodes webpDecodes filename (inl (body, ct)) in
  content (fst res) = body /\
  (snd res = None <->
   prefix "image/" ct = true \/
   (((ext = "jpg" \/ ext = "jpeg") -> jpegDecodes body = true) /\
    (ext = "webp" -> webpDecodes body = true))) /\
  (forall e, snd res = Some e -> e = ("failed to verify download as " ++ mime (fst res))%string).
Proof.
  intros ext res. subst res. unfold getMedia. fold ext.
  destruct (prefix "image/" ct) eqn:Hp.
  - simpl. split; [reflexivity|]. split; [tauto|]. discriminate.
  - destruct (String.eqb_spec ext "jpg") as [Ej|Nj];
      [|destruct (String.eqb_spec ext "jpeg") as [Ejj|Njj];
        [|destruct (String.eqb_spec ext "webp") as [Ew|Nw]]].
    + rewrite Ej. destruct (jpegDecodes body) eqn:Hj; simpl;
        (split; [reflexivity|]).
      * split; [|discriminate]. split; [|reflexivity]. intros _. right.
        split; [auto|intro Hw; discriminate Hw].
      * split; [|intros e He; injection He as <-; reflexivity].
        split; [discriminate|]. intros [Hf|[Hjj _]]; [discriminate|].
        assert (Hc : false = true) by (apply Hjj; auto). discriminate Hc.
    + rewrite Ejj. destruct (jpegDecodes body) eqn:Hj; simpl;
        (split; [reflexivity|]).
      * split; [|discriminate]. split; [|reflexivity]. intros _. right.
        split; [auto|intro Hw; discriminate Hw].
      * split; [|intros e He; injection He as <-; reflexivity].
        split; [discriminate|]. intros [Hf|[Hjj _]]; [discriminate|].
        assert (Hc : false = true) by (apply Hjj; auto). discriminate Hc.
    + destruct (webpDecodes body) eqn:Hw; simpl; (split; [reflexivity|]).
      * split; [|discriminate]. split; [|reflexivity]. intros _. right.
        split; [intros [Hx|Hx]; contradiction|auto].
      * split; [|intros e He; injection He as <-; reflexivity].
        split; [discriminate|]. intros [Hf|[_ Hww]]; [discriminate|].
        assert (Hc : false = true) by (apply Hww; auto). discriminate Hc.
    + simpl. split; [reflexivity|]. split; [|discriminate].
      split; [|reflexivity]. intros _. right.
      split; [intros [Hx|Hx]; contradiction|intro; contradiction].
Qed.

(** ** Parsing the fixes *)

Lemma list_rune_eqb_spec a b : list_rune_eqb a b = true <-> a = b.
Proof.
  revert b. induction a as [|x a IH]; intros [|y b]; simpl;
    try (split; [discriminate|intro H; discriminate H]); [tauto|].
  rewrite andb_true_iff, Z.eqb_eq, IH. split; [intros [-> ->]; reflexivity|].
  intro H. injection H as -> ->. auto.
Qed.

Lemma fixesLoop_ok fx fs :
  snd (fixesLoop fx fs) = None <->
  Forall (fun w => w = runesOf "image-reupload") fs /\
  fst (fixesLoop fx fs) = match fs with [] => fx | _ => mkFixes true end.
Proof.
  revert fx. induction fs as [|w fs IH]; intro fx; simpl.
  - split; [intros _; split; [constructor|reflexivity]|reflexivity].
  - destruct (list_rune_eqb w (runesOf "image-reupload")) eqn:Ew.
    + apply list_rune_eqb_spec in Ew. rewrite IH. rewrite Forall_cons_iff.
      split; intros [Hf Hx]; [|destruct Hf as [_ Hf]]; repeat split; auto.
      * rewrite Hx. destruct fs; reflexivity.
      * rewrite Hx. destruct fs; reflexivity.
    + simpl. split; [discriminate|]. intros [Hf _]. apply Forall_cons_iff in Hf as [Hw _].
      apply list_rune_eqb_spec in Hw. congruence.
Qed.

Lemma fixesLoop_err fx fs :
  snd (fixesLoop fx fs) <> None <->
  exists pre w post,
    fs = pre ++ w :: post /\ Forall (fun w => w = runesOf "image-reupload") pre /\
    w <> runesOf "image-reupload" /\
    fixesLoop fx fs = (match pre with [] => fx | _ => mkFixes true end,
                       Some (runesOf "unknown fix " ++ w)).
Proof.
  revert fx. induction fs as [|w fs IH]; intro fx; simpl.
  - split; [congruence|]. intros (pre & w & post & Hx & _). destruct pre; discriminate.
  - destruct (list_rune_eqb w (runesOf "image-reupload")) eqn:Ew.
    + apply list_rune_eqb_spec in Ew. rewrite IH. split.
      * intros (pre & w' & post & -> & Hpre & Hw' & He).
        exists (w :: pre), w', post. repeat split; auto.
        rewrite He. destruct pre; reflexivity.
      * intros ([|p pre] & w' & post & Hx & Hpre & Hw' & He).
        -- simpl in Hx. injection Hx as -> ->. contradiction.
        -- simpl in Hx. injection Hx as -> ->. apply Forall_cons_iff in Hpre as [_ Hpre].
           exists pre, w', post. repeat split; auto.
           rewrite He. destruct pre; reflexivity.
    + split; [intros _|simpl; discriminate].
      exists [], w, fs. repeat split; auto.
      intro Hw. apply list_rune_eqb_spec in Hw. congruence.
Qed.

(** X: [fixesFromString] succeeds exactly when every whitespace-separated
    word is "image-reupload", and then it enables the image re-upload
    when there is at least one word. *)
Theorem fixesFromString_ok s :
  snd (fixesFromString s) = None <->
  Forall (fun w => w = runesOf "image-reupload") (Fields s) /\
  fixesFromString s = (mkFixes (negb (Nat.eqb (List.length (Fields s)) 0)), None).
Proof.
  unfold fixesFromString. split.
  - intro Hn. destruct (proj1 (fixesLoop_ok _ _) Hn) as [Hf Hx]. split; [exact Hf|].
    destruct (fixesLoop (mkFixes false) (Fields s)) as [fx e] eqn:E. simpl in *.
    subst. destruct (Fields s); reflexivity.
  - intros [Hf Hx]. rewrite Hx. reflexivity.
Qed.

(** X: [fixesFromString] fails at the first word that is not
    "image-reupload", with the message "unknown fix " and that word, and
    returns the fixes set by the words before it. *)
Theorem fixesFromString_err s :
  snd (fixesFromString s) <> None <->
  exists pre w post,
    Fields s = pre ++ w :: post /\ Forall (fun w => w = runesOf "image-reupload") pre /\
    w <> runesOf "image-reupload" /\
    fixesFromString s = (mkFixes (negb (Nat.eqb (List.length pre) 0)),
                         Some (runesOf "unknown fix " ++ w)).
Proof.
  unfold fixesFromString. rewrite fixesLoop_err.
  split; intros (pre & w & post & H1 & H2 & H3 & H4); exists pre, w, post;
    repeat split; auto; rewrite H4; destruct pre; reflexivity.
Qed.

(** ** The earlier launch check *)

Lemma idMap_gen_lookup raw m n :
  strmap_lookup (fold_left (fun m o => strmap_insert m (Name o) (ID o)) raw m) n <> None <->
  In n (map Name raw) \/ strmap_lookup m n <> None.
Proof.
  revert m. induction raw as [|o raw IH]; intro m; simpl; [tauto|].
  rewrite IH. unfold strmap_insert. simpl.
  destruct (string_dec n (Name o)) as [->|Hne].
  - split; [auto|]. intros _. right. discriminate.
  - split; [intros [H|H]; auto|intros [[H|H]|H]; auto; congruence].
Qed.

Lemma idMap_lookup raw n :
  strmap_lookup (Legacy.idMap raw) n <> None <-> In n (map Name raw).
Proof.
  unfold Legacy.idMap. rewrite idMap_gen_lookup. simpl. tauto.
Qed.

Lemma firstUnknown_none known names :
  Legacy.firstUnknown known names = None <->
  Forall (fun n => strmap_lookup known n <> None) names.
Proof.
  induction names as [|n names IH]; simpl.
  - split; auto.
  - rewrite Forall_cons_iff. destruct (strmap_lookup known n) eqn:E.
    + rewrite IH. split; [intro H; split; [discriminate|exact H]|tauto].
    + split; [discriminate|]. intros [H _]. congruence.
Qed.

Lemma checkAssignment_none categories tags a :
  Legacy.checkAssignment categories tags a = None <->
  Forall (fun n => strmap_lookup categories n <> None)
    (Set_ (Legacy.Categories a) ++ Unset (Legacy.Categories a)) /\
  Forall (fun n => strmap_lookup tags n <> None)
    (Set_ (Legacy.Tags a) ++ Unset (Legacy.Tags a)).
Proof.
  unfold Legacy.checkAssignment. rewrite !Forall_app, <- !firstUnknown_none.
  destruct (Legacy.firstUnknown categories (Set_ (Legacy.Categories a)));
  destruct (Legacy.firstUnknown categories (Unset (Legacy.Categories a)));
  destruct (Legacy.firstUnknown tags (Set_ (Legacy.Tags a)));
  destruct (Legacy.firstUnknown tags (Unset (Legacy.Tags a)));
  split; try discriminate; try tauto; intros ((H1 & H2) & H3 & H4); discriminate.
Qed.

Lemma checkAssignments_none categories tags as_ :
  Legacy.checkAssignments categories tags as_ = None <->
  Forall (fun a => Legacy.checkAssignment categories tags a = None) as_.
Proof.
  induction as_ as [|a as_ IH]; simpl; [split; auto|].
  rewrite Forall_cons_iff. destruct (Legacy.checkAssignment categories tags a) eqn:E.
  - split; [discriminate|]. intros [H _]. discriminate.
  - rewrite IH. tauto.
Qed.

(** X: the earlier [launchAssignmentLoop] returns its [quit] handle
    exactly when there is an assignment, both kinds of organisers were
    retrieved, and every category and tag an assignment names (to set or
    to unset) is among the retrieved ones. *)
Theorem legacy_launch_handle Store getOrganisers (st : Store) cfg :
  snd (fst (Legacy.launchAssignmentLoop Store getOrganisers st cfg)) = true <->
  Legacy.Assignments cfg <> [] /\
  exists cs ts,
    getOrganisers st "categories" = inl cs /\ getOrganisers st "tags" = inl ts /\
    Forall (fun a =>
      Forall (fun n => In n (map Name cs))
        (Set_ (Legacy.Categories a) ++ Unset (Legacy.Categories a)) /\
      Forall (fun n => In n (map Name ts))
        (Set_ (Legacy.Tags a) ++ Unset (Legacy.Tags a))) (Legacy.Assignments cfg).
Proof.
  unfold Legacy.launchAssignmentLoop.
  destruct (Nat.eqb (List.length (Legacy.Assignments cfg)) 0) eqn:E0.
  { simpl. split; [discriminate|]. intros [H _]. exfalso. apply H.
    apply Nat.eqb_eq, length_zero_iff_nil in E0. exact E0. }
  assert (Hne : Legacy.Assignments cfg <> []).
  { intro H. rewrite H in E0. discriminate. }
  destruct (getOrganisers st "categories") as [cs|err] eqn:Ec.
  2: { simpl. split; [discriminate|]. intros (_ & cs & ts & H & _). discriminate. }
  destruct (getOrganisers st "tags") as [ts|err] eqn:Et.
  2: { simpl. split; [discriminate|]. intros (_ & cs' & ts & _ & H & _). discriminate. }
  assert (Hall : Legacy.checkAssignments (Legacy.idMap cs) (Legacy.idMap ts)
                   (Legacy.Assignments cfg) = None <->
                 Forall (fun a =>
                   Forall (fun n => In n (map Name cs))
                     (Set_ (Legacy.Categories a) ++ Unset (Legacy.Categories a)) /\
                   Forall (fun n => In n (map Name ts))
                     (Set_ (Legacy.Tags a) ++ Unset (Legacy.Tags a))) (Legacy.Assignments cfg)).
  { rewrite checkAssignments_none. split; intro H; eapply Forall_impl; try exact H;
      intros a' Ha'.
    - apply checkAssignment_none in Ha' as [H1 H2].
      split; eapply Forall_impl; try eassumption; intros n Hn; apply idMap_lookup; exact Hn.
    - apply checkAssignment_none. destruct Ha' as [H1 H2].
      split; eapply Forall_impl; try eassumption; intros n Hn; apply idMap_lookup; exact Hn. }
  destruct (Legacy.checkAssignments (Legacy.idMap cs) (Legacy.idMap ts) (Legacy.Assignments cfg))
    eqn:Ek; simpl.
  - split; [discriminate|]. intros (_ & cs' & ts' & Hc & Ht & Hf).
    injection Hc as <-. injection Ht as <-. apply Hall in Hf. congruence.
  - split; [intros _|reflexivity]. split; [exact Hne|].
    exists cs, ts. repeat split; auto. apply Hall. reflexivity.
Qed.

Lemma legacy_launch_handle_witness :
  let getOrg := fun (_ : unit) (k : string) =>
    if String.eqb k "categories" then inl [made; notMade] else inl [yummy] in
  let cfg := Legacy.mkAssignments 60 10
               [Legacy.mkAssignment [] (mkData ["Made"] []) (mkData [] ["Yummy"])] in
  snd (fst (Legacy.launchAssignmentLoop unit getOrg tt cfg)) = true /\
  (snd (fst (Legacy.launchAssignmentLoop unit getOrg tt cfg)) = true <->
   Legacy.Assignments cfg <> [] /\
   exists cs ts,
     getOrg tt "categories" = inl cs /\ getOrg tt "tags" = inl ts /\
     Forall (fun a =>
       Forall (fun n => In n (map Name cs))
         (Set_ (Legacy.Categories a) ++ Unset (Legacy.Categories a)) /\
       Forall (fun n => In n (map Name ts))
         (Set_ (Legacy.Tags a) ++ Unset (Legacy.Tags a))) (Legacy.Assignments cfg)).
Proof.
  intros getOrg cfg. split; [reflexivity|]. exact (legacy_launch_handle unit getOrg tt cfg).
Defined.


(** ** Resolving names through the taxonomy *)

Lemma strmap_fold_lookup (raw : list organiser) m n :
  strmap_lookup (fold_left (fun m o => strmap_insert m (Name o) o) raw m) n =
  fold_left (fun acc o => if String.eqb (Name o) n then Some o else acc) raw
    (strmap_lookup m n).
Proof.
  revert m. induction raw as [|o raw IH]; intro m; [reflexivity|].
  simpl. rewrite IH. unfold strmap_insert. simpl. f_equal.
  destruct (string_dec n (Name o)) as [->|Hne].
  - rewrite String.eqb_refl. reflexivity.
  - destruct (String.eqb_spec (Name o) n); [congruence|reflexivity].
Qed.

Lemma indexedSlice_gen {A} (myMap : strmap A) names acc :
  fold_left (fun result index =>
    match strmap_lookup myMap index with
    | Some value => result ++ [value]
    | None => result
    end) names acc =
  acc ++ flat_map (fun n => match strmap_lookup myMap n with
                            | Some v => [v] | None => [] end) names.
Proof.
  revert acc. induction names as [|n names IH]; intro acc; simpl.
  - rewrite app_nil_r. reflexivity.
  - rewrite IH. destruct (strmap_lookup myMap n); simpl;
      [rewrite <- app_assoc; reflexivity|reflexivity].
Qed.

Lemma indexedSlice_buildTaxonomy raw names :
  indexedSlice (fold_left (fun m o => strmap_insert m (Name o) o) raw []) names =
  flat_map (fun n => match lastNamed raw n with Some o => [o] | None => [] end) names.
Proof.
  unfold indexedSlice. rewrite indexedSlice_gen. simpl.
  apply flat_map_ext. intro n. rewrite strmap_fold_lookup. reflexivity.
Qed.

Lemma lastNamed_gen raw n acc o :
  fold_left (fun acc o => if String.eqb (Name o) n then Some o else acc) raw acc = Some o ->
  (Name o = n /\ In o raw) \/ acc = Some o.
Proof.
  revert acc. induction raw as [|o' raw IH]; intros acc H; simpl in *; [auto|].
  destruct (IH _ H) as [[Hn Hin]|Hacc]; [left; auto|].
  destruct (String.eqb_spec (Name o') n); [|auto].
  injection Hacc as ->. left. auto.
Qed.

Lemma lastNamed_none_gen raw n acc :
  fold_left (fun acc o => if String.eqb (Name o) n then Some o else acc) raw acc = None ->
  acc = None /\ ~ In n (map Name raw).
Proof.
  revert acc. induction raw as [|o raw IH]; intros acc H; simpl in *; [auto|].
  destruct (IH _ H) as [Hacc Hn].
  destruct (String.eqb_spec (Name o) n); [discriminate|]. split; [exact Hacc|tauto].
Qed.

Lemma resolve_names raw names :
  Forall (fun n => In n (map Name raw)) names ->
  map Name (flat_map (fun n => match lastNamed raw n with Some o => [o] | None => [] end)
              names) = names.
Proof.
  induction names as [|n names IH]; intro Hf; [reflexivity|].
  apply Forall_cons_iff in Hf as [Hn Hf]. simpl.
  destruct (lastNamed raw n) as [o|] eqn:E.
  - apply lastNamed_gen in E as [[Ho _]|E]; [|discriminate].
    simpl. rewrite Ho, IH by exact Hf. reflexivity.
  - apply lastNamed_none_gen in E as [_ E]. contradiction.
Qed.

Lemma not_skipped_known known l :
  existsb (fun c => negb (contains known c)) l = false -> Forall (fun n => In n known) l.
Proof.
  intro H. apply Forall_forall. intros n Hn.
  destruct (in_dec string_dec n known) as [Hk|Hk]; [exact Hk|].
  assert (Hx : existsb (fun c => negb (contains known c)) l = true)
    by (apply existsb_not_contains; eauto).
  congruence.
Qed.

(** X: [indexedSlice] over the maps of [buildTaxonomy] resolves each name,
    in the given order and with repetitions, to the last fetched organiser
    of that name, and drops names no organiser has. *)
Theorem buildTaxonomy_indexedSlice cs ts names :
  indexedSlice (categoriesMap (buildTaxonomy cs ts)) names =
    flat_map (fun n => match lastNamed cs n with Some o => [o] | None => [] end) names /\
  indexedSlice (tagsMap (buildTaxonomy cs ts)) names =
    flat_map (fun n => match lastNamed ts n with Some o => [o] | None => [] end) names.
Proof.
  split; apply indexedSlice_buildTaxonomy.
Qed.

(** X: for an assignment [skipThis] lets through, every category and tag
    name it sets or unsets resolves to an organiser of that name, so the
    organisers added and removed bear exactly the configured names, in
    order. *)
Theorem not_skipped_names_resolve cs ts a
  (Hs : skipThis (buildTaxonomy cs ts) a = false) :
  map Name (indexedSlice (categoriesMap (buildTaxonomy cs ts)) (Set_ (Categories a))) =
    Set_ (Categories a) /\
  map Name (indexedSlice (categoriesMap (buildTaxonomy cs ts)) (Unset (Categories a))) =
    Unset (Categories a) /\
  map Name (indexedSlice (tagsMap (buildTaxonomy cs ts)) (Set_ (Tags a))) = Set_ (Tags a) /\
  map Name (indexedSlice (tagsMap (buildTaxonomy cs ts)) (Unset (Tags a))) = Unset (Tags a).
Proof.
  unfold skipThis in Hs. rewrite !orb_false_iff in Hs.
  destruct Hs as [[[H1 H2] H3] H4]. cbn [categoriesMap tagsMap categories tags buildTaxonomy] in *.
  rewrite !indexedSlice_buildTaxonomy.
  repeat split; apply resolve_names, not_skipped_known; assumption.
Qed.

Lemma not_skipped_names_resolve_witness :
  skipThis (buildTaxonomy [made; notMade] [yummy; unknownTag]) madeAssignment = false /\
  (map Name (indexedSlice (categoriesMap (buildTaxonomy [made; notMade] [yummy; unknownTag]))
               (Set_ (Categories madeAssignment))) = Set_ (Categories madeAssignment) /\
   map Name (indexedSlice (categoriesMap (buildTaxonomy [made; notMade] [yummy; unknownTag]))
               (Unset (Categories madeAssignment))) = Unset (Categories madeAssignment) /\
   map Name (indexedSlice (tagsMap (buildTaxonomy [made; notMade] [yummy; unknownTag]))
               (Set_ (Tags madeAssignment))) = Set_ (Tags madeAssignment) /\
   map Name (indexedSlice (tagsMap (buildTaxonomy [made; notMade] [yummy; unknownTag]))
               (Unset (Tags madeAssignment))) = Unset (Tags madeAssignment)).
Proof.
  assert (Hs : skipThis (buildTaxonomy [made; notMade] [yummy; unknownTag]) madeAssignment = false)
    by reflexivity.
  split; [exact Hs|]. exact (not_skipped_names_resolve _ _ _ Hs).
Defined.

(** ** The calls of one assignment *)

Section AssignmentCalls.

Context {Store : Type}.
Variable mealie : mealieClient Store.

Lemma recipeFetches_app l1 l2 :
  recipeFetches (l1 ++ l2) = recipeFetches l1 ++ recipeFetches l2.
Proof. unfold recipeFetches. apply flat_map_app. Qed.

Lemma processRecipe_trace tx a s w :
  exists rest, calls (snd (processRecipe mealie tx a s w)) = rest ++ calls w /\
    Forall recipe_or_write rest /\ recipeFetches rest = [slugSlug s].
Proof.
  destruct (getRecipe mealie (store w) (slugSlug s)) as [rc|] eqn:Eg.
  - rewrite (processRecipe_calls mealie tx a s w rc Eg).
    destruct (snd (fst (updateRecipe tx a rc)) || snd (updateRecipe tx a rc)).
    + exists [CSetOrganisers (S (nextCtx w)) (fst (fst (updateRecipe tx a rc)));
              CGetRecipe (nextCtx w) (slugSlug s)].
      split; [reflexivity|]. split; [repeat constructor|reflexivity].
    + exists [CGetRecipe (nextCtx w) (slugSlug s)].
      split; [reflexivity|]. split; [repeat constructor|reflexivity].
  - exists [CGetRecipe (nextCtx w) (slugSlug s)].
    unfold processRecipe, bind, withTimeout, mGetRecipe, record. cbn -[updateRecipe].
    rewrite Eg. split; [reflexivity|]. split; [repeat constructor|reflexivity].
Qed.

Lemma processRecipes_trace tx a ss w :
  exists rest, calls (snd (processRecipes mealie tx a ss w)) = rest ++ calls w /\
    Forall recipe_or_write rest /\ recipeFetches rest = rev (map slugSlug ss).
Proof.
  revert w. induction ss as [|s ss IH]; intro w.
  - exists []. split; [reflexivity|]. split; constructor.
  - cbn [processRecipes]. unfold bind.
    destruct (processRecipe_trace tx a s w) as (r1 & H1 & F1 & R1).
    destruct (processRecipe mealie tx a s w) as [u w1]. simpl in H1.
    destruct (IH w1) as (r2 & H2 & F2 & R2).
    exists (r2 ++ r1). rewrite H2, H1, app_assoc. split; [reflexivity|].
    split; [apply Forall_app; auto|].
    rewrite recipeFetches_app, R1, R2. reflexivity.
Qed.

Lemma nodup_workingSet m : NoDup (map fst m) -> NoDup (workingSet m).
Proof.
  unfold workingSet. induction m as [|[k v] m IH]; intro Hn; simpl; [constructor|].
  inversion Hn as [|? ? Hk Hm]; subst. destruct v; simpl; [|apply IH, Hm].
  constructor; [|apply IH, Hm]. intro Hin. apply Hk.
  apply in_map_iff in Hin as ([k' v'] & Hk' & Hin). simpl in Hk'. subst.
  apply filter_In in Hin. apply in_map_iff. eexists. split; [|exact (proj1 Hin)]. reflexivity.
Qed.

Lemma nodup_slugSlug l : NoDup l -> NoDup (map slugSlug l).
Proof.
  induction l as [|[x] l IH]; intro Hn; simpl; [constructor|].
  inversion Hn as [|? ? Hx Hl]; subst. constructor; [|apply IH, Hl].
  intro Hin. apply in_map_iff in Hin as ([y] & Hy & Hin). simpl in Hy. subst. contradiction.
Qed.

End AssignmentCalls.

(** X: an assignment that is not skipped first runs its [add] and
    [remove] searches, in declared order, under one deadline, and then
    only fetches and writes recipes: it fetches each recipe whose last
    matching query is an [add] exactly once and fetches no other. *)
Theorem runAssignment_calls {Store} (mealie : mealieClient Store) tx a w
  (Hs : skipThis tx a = false) :
  exists rest,
    calls (snd (runAssignment mealie tx a w)) =
      rest ++ rev (map (fun q => CGetSlugs (nextCtx w) (Params q))
                       (filter is_add_remove (Queries a))) ++ calls w /\
    Forall recipe_or_write rest /\
    NoDup (recipeFetches rest) /\
    (forall s, In s (recipeFetches rest) <->
               lastMatchDecision mealie (store w) (Queries a) (mkSlug s) = Some true).
Proof.
  unfold runAssignment. rewrite Hs. unfold bind, withTimeout.
  set (w1 := mkWorld (store w) (S (nextCtx w)) (calls w)).
  pose proof (evalQueries_world mealie (nextCtx w) (Queries a) [] w1) as (E1 & _ & E3).
  pose proof (evalQueries_lookup mealie (nextCtx w) (Queries a) [] w1) as Hl.
  pose proof (evalQueries_nodup mealie (nextCtx w) (Queries a) [] w1 (NoDup_nil _)) as Hn.
  destruct (evalQueries mealie (nextCtx w) (Queries a) [] w1) as [r w2]. simpl in *.
  destruct (processRecipes_trace mealie tx a (workingSet r) w2) as (rest & H1 & F & R).
  exists rest. rewrite H1, E3. split; [reflexivity|]. split; [exact F|].
  rewrite R. split.
  - apply NoDup_rev, nodup_slugSlug, nodup_workingSet, Hn.
  - intro s. rewrite <- in_rev. unfold lastMatchDecision. rewrite <- (Hl (mkSlug s)).
    rewrite <- workingSet_in by exact Hn. split.
    + intro Hin. apply in_map_iff in Hin as ([x] & Hx & Hin). simpl in Hx. subst. exact Hin.
    + intro Hin. apply in_map_iff. exists (mkSlug s). auto.
Qed.

Lemma runAssignment_calls_witness :
  skipThis (buildTaxonomy [made; notMade] [yummy; unknownTag]) madeAssignment = false /\
  exists rest,
    calls (snd (runAssignment demoClient (buildTaxonomy [made; notMade] [yummy; unknownTag])
                  madeAssignment world0)) =
      rest ++ rev (map (fun q => CGetSlugs (nextCtx world0) (Params q))
                       (filter is_add_remove (Queries madeAssignment))) ++ calls world0 /\
    Forall recipe_or_write rest /\
    NoDup (recipeFetches rest) /\
    (forall s, In s (recipeFetches rest) <->
               lastMatchDecision demoClient (store world0) (Queries madeAssignment) (mkSlug s)
               = Some true).
Proof.
  assert (Hs : skipThis (buildTaxonomy [made; notMade] [yummy; unknownTag]) madeAssignment = false)
    by reflexivity.
  split; [exact Hs|]. exact (runAssignment_calls demoClient _ _ world0 Hs).
Defined.

(** ** Anchors of the Markdown export *)

Section SlugifyFacts.

Lemma fieldsAux_trimLeft s : Fields (trimLeftSpace s) = Fields s.
Proof.
  induction s as [|r s IH]; [reflexivity|]. unfold Fields in *. simpl.
  destruct (isSpace r) eqn:Hr; [exact IH|]. simpl. rewrite Hr. reflexivity.
Qed.

Lemma fieldsAux_spaces cur sp :
  Forall (fun r => isSpace r = true) sp ->
  fieldsAux cur sp = match cur with [] => [] | _ => [rev cur] end.
Proof.
  intro H. revert cur. induction H as [|r sp Hr Hsp IH]; intro cur; [reflexivity|].
  simpl. rewrite Hr. destruct cur; rewrite IH; reflexivity.
Qed.

Lemma fieldsAux_app_spaces cur x sp :
  Forall (fun r => isSpace r = true) sp -> fieldsAux cur (x ++ sp) = fieldsAux cur x.
Proof.
  intro H. revert cur. induction x as [|r x IH]; intro cur; simpl.
  - apply fieldsAux_spaces, H.
  - destruct (isSpace r); [destruct cur|]; rewrite ?IH; reflexivity.
Qed.

Lemma trimLeft_split s :
  exists pre, Forall (fun r => isSpace r = true) pre /\ s = pre ++ trimLeftSpace s.
Proof.
  induction s as [|r s (pre & Hp & Hs)]; [exists []; split; [constructor|reflexivity]|].
  simpl. destruct (isSpace r) eqn:Hr.
  - exists (r :: pre). split; [constructor; assumption|]. simpl. rewrite <- Hs. reflexivity.
  - exists []. split; [constructor|reflexivity].
Qed.

Lemma Fields_TrimSpace s : Fields (TrimSpace s) = Fields s.
Proof.
  unfold TrimSpace. set (t := trimLeftSpace s).
  destruct (trimLeft_split (rev t)) as (pre & Hp & Ht).
  transitivity (Fields t); [|apply fieldsAux_trimLeft].
  assert (E : t = rev (trimLeftSpace (rev t)) ++ rev pre).
  { rewrite <- rev_app_distr, <- Ht, rev_involutive. reflexivity. }
  unfold Fields. rewrite E at 2. rewrite fieldsAux_app_spaces; [reflexivity|].
  apply Forall_rev, Hp.
Qed.

Lemma fieldsAux_nospace cur s :
  forallb (fun r => negb (isSpace r)) s = true ->
  fieldsAux cur s = match rev cur ++ s with [] => [] | x => [x] end.
Proof.
  revert cur. induction s as [|r s IH]; intros cur H; simpl.
  - rewrite app_nil_r. destruct cur as [|x cur]; [reflexivity|].
    simpl. destruct (rev cur ++ [x]) eqn:E; [|reflexivity].
    apply (f_equal (@List.length _)) in E. rewrite length_app in E. simpl in E. lia.
  - simpl in H. apply andb_prop in H as [Hr H]. apply negb_true_iff in Hr. rewrite Hr.
    rewrite IH by exact H. simpl. rewrite <- app_assoc. reflexivity.
Qed.

Lemma in_Join ws sep r : In r (Join ws sep) -> In r (List.concat ws) \/ In r sep.
Proof.
  induction ws as [|w ws IH]; simpl; [tauto|].
  destruct ws as [|w' ws]; [rewrite app_nil_r; tauto|].
  intro H. apply in_app_or in H as [H|H]; [left; apply in_or_app; auto|].
  apply in_app_or in H as [H|H]; [auto|].
  destruct (IH H) as [H'|H']; [left; apply in_or_app; auto|auto].
Qed.

Lemma Join_nospace ws sep :
  Forall (fun w => forallb (fun r => negb (isSpace r)) w = true) ws ->
  forallb (fun r => negb (isSpace r)) sep = true ->
  forallb (fun r => negb (isSpace r)) (Join ws sep) = true.
Proof.
  intros H Hs. induction H as [|w ws Hw Hws IH]; [reflexivity|].
  destruct ws as [|w' ws]; [exact Hw|].
  change (Join (w :: w' :: ws) sep) with (w ++ sep ++ Join (w' :: ws) sep).
  rewrite !forallb_app, Hw, Hs, IH. reflexivity.
Qed.

Lemma Fields_words_nospace s :
  Forall (fun w => forallb (fun r => negb (isSpace r)) w = true) (Fields s).
Proof.
  eapply Forall_impl; [|apply (fieldsAux_words s []); constructor].
  intros w [_ Hw]. apply forallb_forall. intros r Hr.
  rewrite Forall_forall in Hw. rewrite (Hw r Hr). reflexivity.
Qed.

End SlugifyFacts.

(** X: the anchors [slugify] makes hold no white space, and the
    [strings.TrimSpace] in it changes nothing: they are the lower-cased
    words joined by dashes. *)
Theorem slugify_words lowerRune s :
  slugify lowerRune s = Join (Fields (map lowerRune s)) [45%Z] /\
  forallb (fun r => negb (isSpace r)) (slugify lowerRune s) = true.
Proof.
  unfold slugify. rewrite Fields_TrimSpace. split; [reflexivity|].
  apply Join_nospace; [apply Fields_words_nospace|reflexivity].
Qed.

(** X: when lower-casing is idempotent and keeps the dash, [slugify] is
    idempotent: an anchor made from an anchor is the same anchor. *)
Theorem slugify_idempotent lowerRune
  (Hidem : forall r, lowerRune (lowerRune r) = lowerRune r)
  (Hdash : lowerRune 45%Z = 45%Z) s :
  slugify lowerRune (slugify lowerRune s) = slugify lowerRune s.
Proof.
  set (j := slugify lowerRune s).
  assert (Hj : j = Join (Fields (map lowerRune s)) [45%Z])
    by (unfold j, slugify; rewrite Fields_TrimSpace; reflexivity).
  assert (Hns : forallb (fun r => negb (isSpace r)) j = true)
    by (rewrite Hj; apply Join_nospace; [apply Fields_words_nospace|reflexivity]).
  assert (Hlow : map lowerRune j = j).
  { rewrite <- (map_id j) at 2. apply map_ext_in. intros r Hr.
    rewrite Hj in Hr. apply in_Join in Hr as [Hr|[<-|[]]]; [|exact Hdash].
    unfold Fields in Hr. rewrite concat_fieldsAux in Hr. simpl in Hr.
    apply filter_In in Hr as [Hr _]. apply in_map_iff in Hr as (x & <- & _). apply Hidem. }
  change (slugify lowerRune j) with (Join (Fields (TrimSpace (map lowerRune j))) [45%Z]).
  rewrite Hlow, Fields_TrimSpace. unfold Fields.
  rewrite fieldsAux_nospace by exact Hns. simpl.
  destruct j; reflexivity.
Qed.

Lemma lowerAscii_idem r : lowerAscii (lowerAscii r) = lowerAscii r.
Proof.
  unfold lowerAscii.
  destruct (Z.leb_spec 65 r); destruct (Z.leb_spec r 90); simpl;
    try (destruct (Z.leb_spec 65 r); destruct (Z.leb_spec r 90); simpl; lia);
    destruct (Z.leb_spec 65 (r + 32)); destruct (Z.leb_spec (r + 32) 90); simpl; lia.
Qed.

Lemma slugify_idempotent_witness :
  slugify lowerAscii (slugify lowerAscii (runesOf " Main  Dish ")) =
  slugify lowerAscii (runesOf " Main  Dish ") /\
  slugify lowerAscii (runesOf " Main  Dish ") = runesOf "main-dish".
Proof.
  split; [|vm_compute; reflexivity].
  exact (slugify_idempotent lowerAscii lowerAscii_idem eq_refl (runesOf " Main  Dish ")).
Defined.
